(** * RS-HDMR-GPR: a shallow embedding of [RS_HDMR_GPR_Code.py]

    The development follows the Python module function by function:
    [rmse], [sumcol] and the fitting routine [RS_HDMR_GPR] (enumeration of
    the combinations, initialisation, cycle loop, evaluation).

    Conventions of the embedding.
    - A numpy [float64] is a real number of the Standard Library ([R]):
      rounding, underflow and overflow are not modelled.  This embedding
      says which operations the code performs and in which order; an
      identity between two differently computed quantities that is proved
      in it is an identity of exact real arithmetic, and is stated as such.
      Module [Binary64] transcribes the initialisation of line 96 and
      [sumcol] a second time, over the binary64 numbers of the kernel,
      where such an identity has to be tested on the program's own numbers.
    - A one-dimensional numpy array (or pandas Series) is a [list R].  The
      elementwise operators pair the operands position by position; numpy
      requires the operands to have the same length and so do the theorems
      that need it.
    - A two-dimensional numpy array of shape [(N, M)] is the record
      [matrix]: the number of rows [N] and the list of its [M] columns.  The
      program only ever reads and writes whole columns ([F[:, i]]).
    - A Python exception is a value of [exn]; code that may raise returns a
      [result].
    - The scikit-learn regressor, [numpy.polyfit] and the plotting calls are
      external: the first two are the fields of the class [External], the
      plotting calls compute nothing that is returned and are left out. *)

From Stdlib Require Import String.
From Stdlib Require Import List ZArith Reals Lra Lia Bool Arith.
From Stdlib Require PrimFloat.
Import ListNotations.

Open Scope R_scope.

(** ** Exceptions *)

Inductive exn : Type :=
| ZeroDivisionError
| ValueError
| UnboundLocalError
| IndexError
| KeyError
| LibraryError.

Inductive result (A : Type) : Type :=
| Ok (a : A)
| Raise (e : exn).

Arguments Ok {A} a.
Arguments Raise {A} e.

Definition bind {A B : Type} (c : result A) (k : A -> result B) : result B :=
  match c with
  | Ok a => k a
  | Raise e => Raise e
  end.

Notation "x <- c ;; k" := (bind c (fun x => k))
  (at level 61, c at next level, right associativity).
Notation "' pat <- c ;; k" := (bind c (fun x => match x with pat => k end))
  (at level 61, pat pattern, c at next level, right associativity).

Definition is_ok {A : Type} (c : result A) : bool :=
  match c with Ok _ => true | Raise _ => false end.

(** ** Vectors *)

Definition vec : Type := list R.

(** [np.zeros(n)] and [np.ones(n)]. *)
Definition zeros (n : nat) : vec := repeat 0 n.
Definition ones (n : nat) : vec := repeat 1 n.

(** An elementwise binary operator of numpy. *)
Definition vmap2 (f : R -> R -> R) (a b : vec) : vec :=
  map (fun p => f (fst p) (snd p)) (combine a b).

Definition vadd : vec -> vec -> vec := vmap2 Rplus.
Definition vsub : vec -> vec -> vec := vmap2 Rminus.
Definition vmul : vec -> vec -> vec := vmap2 Rmult.

(** [v * c] and [v / c] for a scalar [c]. *)
Definition vscale (v : vec) (c : R) : vec := map (fun x => x * c) v.
Definition vdiv (v : vec) (c : R) : vec := map (fun x => x / c) v.

(** [np.power(v, 2)], [np.sqrt(v)], [np.sum(v)], [v.mean()]. *)
Definition vsquare (v : vec) : vec := map (fun x => x ^ 2) v.
Definition vsqrt (v : vec) : vec := map sqrt v.
Definition vsum (v : vec) : R := fold_left Rplus v 0.
Definition vmean (v : vec) : R := vsum v / INR (length v).

(** ** Matrices *)

Record matrix : Type := mkMatrix {
  nrows : nat;        (* F.shape[0] *)
  cols : list vec     (* the columns F[:, 0], ..., F[:, M-1] *)
}.

Definition ncols (F : matrix) : nat := length (cols F).

(** [F[:, i]] *)
Definition col (F : matrix) (i : nat) : vec := nth i (cols F) [].

(** [F[r, i]] *)
Definition entry (F : matrix) (r i : nat) : R := nth r (col F i) 0.

Fixpoint list_set {A : Type} (l : list A) (i : nat) (x : A) : list A :=
  match l, i with
  | [], _ => []
  | _ :: t, O => x :: t
  | h :: t, S i' => h :: list_set t i' x
  end.

(** [F[:, i] = v] *)
Definition set_col (F : matrix) (i : nat) (v : vec) : matrix :=
  mkMatrix (nrows F) (list_set (cols F) i v).

(** [np.zeros((n, m))] *)
Definition zero_matrix (n m : nat) : matrix := mkMatrix n (repeat (zeros n) m).

(** Every column has [nrows] entries. *)
Definition wf_matrix (F : matrix) : Prop :=
  Forall (fun c => length c = nrows F) (cols F).

(** ** [rmse]

<<
def rmse(ypred, ytest):
    Sqerr = np.power(ytest - ypred, 2)
    MSE = np.sum(Sqerr)
    rmse = np.sqrt(MSE / ytest.size)
    return rmse
>> *)

Definition rmse (ypred ytest : vec) : R :=
  let Sqerr := vsquare (vsub ytest ypred) in
  let MSE := vsum Sqerr in
  sqrt (MSE / INR (length ytest)).

(** ** [sumcol]

<<
def sumcol(F, j):
    s = np.zeros(F.shape[0])
    for i in range(F.shape[1]):
        if i == j:
            i += 1
        else:
            s = s + F[:, i]
    return s
>>

    The loop variable is rebound by [range] at the start of each iteration,
    so the assignment [i += 1] of the first branch changes nothing: that
    iteration leaves [s] as it is.  [sumcol_loop] is the loop started at
    index [i] over the remaining columns. *)

Fixpoint sumcol_loop (cs : list vec) (i : nat) (j : Z) (s : vec) : vec :=
  match cs with
  | [] => s
  | c :: rest =>
      sumcol_loop rest (S i) j (if (Z.of_nat i =? j)%Z then s else vadd s c)
  end.

Definition sumcol (F : matrix) (j : Z) : vec :=
  sumcol_loop (cols F) 0 j (zeros (nrows F)).

(** ** Python arithmetic used by the fitting routine *)

(** [a / b] on two [int]s: true division, [ZeroDivisionError] when [b] is 0. *)
Definition py_truediv (a b : Z) : result R :=
  if (b =? 0)%Z then Raise ZeroDivisionError else Ok (IZR a / IZR b).

(** [int(x)] truncates towards zero; on the quotient of two [int]s it is
    [Z.quot]. *)
Definition maxscaledowncycle (number_cycles : Z) : Z := Z.quot number_cycles 3.

(** [min(1, ((k + 1) / maxscaledowncycle) + 0.5)] *)
Definition scale_ramp (number_cycles : Z) (k : nat) : result R :=
  q <- py_truediv (Z.of_nat k + 1) (maxscaledowncycle number_cycles) ;;
  Ok (Rmin 1 (q + 1 / 2)).

(** [range(n)] *)
Definition py_range (n : Z) : list nat := seq 0 (Z.to_nat n).

(** [l[i]] on a Python list *)
Definition py_index {A : Type} (l : list A) (i : nat) : result A :=
  match nth_error l i with
  | Some x => Ok x
  | None => Raise IndexError
  end.

(** [np.poly1d(f)(x)]: the coefficients come highest degree first. *)
Definition poly1d (f : list R) (x : R) : R :=
  fold_left (fun acc c => acc * x + c) f 0.

(** ** [itertools.combinations]

    The [r]-element subsequences of the input, in lexicographic order of the
    positions; a negative [r] raises [ValueError]. *)

Fixpoint combinations {A : Type} (l : list A) (r : nat) : list (list A) :=
  match l with
  | [] => match r with O => [[]] | S _ => [] end
  | x :: t =>
      match r with
      | O => [[]]
      | S r' => map (cons x) (combinations t r') ++ combinations t r
      end
  end.

Definition itertools_combinations {A : Type} (l : list A) (r : Z)
  : result (list (list A)) :=
  if (r <? 0)%Z then Raise ValueError else Ok (combinations l (Z.to_nat r)).

(** The binomial coefficient C(n, k), by Pascal's rule. *)
Fixpoint binom (n k : nat) : nat :=
  match n, k with
  | _, O => 1%nat
  | O, S _ => 0%nat
  | S n', S k' => (binom n' k' + binom n' k)%nat
  end.

(** ** Data frames

    A pandas [DataFrame]: its number of rows and its labelled columns, in
    column order.  Iterating over a frame yields the column labels.
    Selection by label is modelled for frames whose column labels are
    pairwise distinct: there [X[a]] is the one column labelled [a] (on a
    repeated label pandas returns every column that carries it, the model
    the first one). *)

Definition label : Type := nat.

Record DataFrame : Type := mkFrame {
  df_nrows : nat;                    (* X.shape[0] *)
  df_columns : list (label * vec)
}.

Definition df_labels (X : DataFrame) : list label := map fst (df_columns X).

(** [X[a]]: the column labelled [a], [KeyError] when there is none. *)
Fixpoint df_lookup (cs : list (label * vec)) (a : label) : result vec :=
  match cs with
  | [] => Raise KeyError
  | (b, v) :: rest => if Nat.eqb a b then Ok v else df_lookup rest a
  end.

Definition df_get (X : DataFrame) (a : label) : result vec :=
  df_lookup (df_columns X) a.

(** [X[c]] for an array of labels [c]: the columns in the order of [c]. *)
Fixpoint df_select (X : DataFrame) (c : list label) : result (list vec) :=
  match c with
  | [] => Ok []
  | a :: rest =>
      v <- df_get X a ;;
      vs <- df_select X rest ;;
      Ok (v :: vs)
  end.

(** ** The regressor objects

    A [GaussianProcessRegressor] object: its identity, the arguments of its
    constructor and, once [fit] has run, the data it was fitted to.  The
    kernel is always [RBF(length_scale, bounds (1e-2, 1e2))], so the length
    scale stands for it. *)

Record gpr_config : Type := mkConfig {
  cfg_length_scale : R;
  cfg_alpha : R;
  cfg_optimizer : option string
}.

Definition fit_data : Type := (list vec * vec)%type.

Record regressor : Type := mkRegressor {
  rid : nat;                         (* identity of the Python object *)
  config : gpr_config;
  fitted_on : option fit_data        (* [None]: never fitted *)
}.

(** What scikit-learn and numpy compute: whether [fit(X, y)] succeeds, the
    pair (mean, standard deviation) that [predict(X, return_std=True)]
    returns for a regressor in a given state ([predict(X)] returns the
    mean), and the coefficients returned by [np.polyfit(x, y, deg)]. *)
Class External : Type := {
  gpr_fit : gpr_config -> list vec -> vec -> result unit;
  gpr_predict : gpr_config -> option fit_data -> list vec -> result (vec * vec);
  np_polyfit : vec -> vec -> nat -> result (list R)
}.

(** A toy library: every fit succeeds, every prediction is the constant 1
    with standard deviation 1, one value per query row (a query without
    columns has no rows), and [polyfit] returns the constant polynomial 1. *)
Definition query_rows (X : list vec) : nat := length (hd [] X).

Definition constant_stub : External := {|
  gpr_fit := fun _ _ _ => Ok tt;
  gpr_predict := fun _ _ X => Ok (ones (query_rows X), ones (query_rows X));
  np_polyfit := fun _ _ _ => Ok [0; 0; 0; 1]
|}.

(** The toy library with the input check of scikit-learn: [fit] and
    [predict] raise [ValueError] on an input without feature column. *)
Definition strict_stub : External := {|
  gpr_fit := fun _ X _ =>
    match X with [] => Raise ValueError | _ :: _ => Ok tt end;
  gpr_predict := fun _ _ X =>
    match X with
    | [] => Raise ValueError
    | _ :: _ => Ok (ones (query_rows X), ones (query_rows X))
    end;
  np_polyfit := fun _ _ _ => Ok [0; 0; 0; 1]
|}.

(** A library in which every call raises. *)
Definition failing_stub : External := {|
  gpr_fit := fun _ _ _ => Raise LibraryError;
  gpr_predict := fun _ _ _ => Raise LibraryError;
  np_polyfit := fun _ _ _ => Raise LibraryError
|}.

(** [[GaussianProcessRegressor(kernel=rbf, alpha=alpha, optimizer=optimizer)
      for i in range(0, M)]]: [M] new objects; [next] is the number of
    objects allocated so far and serves as the identity of the next one. *)
Definition new_regressors (cfg : gpr_config) (M next : nat)
  : list regressor * nat :=
  (map (fun i => mkRegressor (next + i) cfg None) (seq 0 M), (next + M)%nat).

(** ** The arguments of [RS_HDMR_GPR] *)

Record params : Type := mkParams {
  order : Z;
  alpha : R;
  use_decay_alpha : string;
  scale_factor : R;
  length_scale : R;
  number_cycles : Z;
  init : string;
  plot_error_bars : string;
  mixe : string;
  optimizer : option string
}.

(** The state of the train block: the local variables [alpha], [GPR],
    [component_function_train] (unbound until an initialisation branch
    assigns it) and [rmse_train], and the allocation counter. *)
Record fit_state : Type := mkState {
  st_alpha : R;
  st_GPR : list regressor;
  st_F : option matrix;
  st_rmse_train : list R;
  st_next : nat
}.

(** Reading a local variable that may be unbound. *)
Definition py_var {A : Type} (x : option A) : result A :=
  match x with
  | Some a => Ok a
  | None => Raise UnboundLocalError
  end.

(** The sentinels of the two full row sums. *)
Definition rowsum_sentinel : Z := 10000.
Definition errorbar_sentinel : Z := 5000.

(** ** The fitting routine *)

Section Fitter.

Context {lib : External}.

Variables (X_train : DataFrame) (y_train : vec).
Variables (X_test : DataFrame) (y_test : vec).
Variable p : params.

(** [g.fit(X, y)] mutates the object: same identity and configuration, new
    fitted state. *)
Definition fit (g : regressor) (X : list vec) (y : vec) : result regressor :=
  _ <- gpr_fit (config g) X y ;;
  Ok (mkRegressor (rid g) (config g) (Some (X, y))).

(** [g.predict(X)] and [g.predict(X, return_std=True)] *)
Definition predict_std (g : regressor) (X : list vec) : result (vec * vec) :=
  gpr_predict (config g) (fitted_on g) X.

Definition predict (g : regressor) (X : list vec) : result vec :=
  ms <- predict_std g X ;;
  Ok (fst ms).

Definition make_config (a : R) : gpr_config :=
  mkConfig (length_scale p) a (optimizer p).

(** *** Lines 93-105: combinations and initialisation *)

Definition all_combos : result (list (list label)) :=
  itertools_combinations (df_labels X_train) (order p).

(** The loop of the polynomial initialisation, over the indices [idx]. *)
Fixpoint poly_init_loop (combos : list (list label)) (idx : list nat)
    (F : matrix) : result matrix :=
  match idx with
  | [] => Ok F
  | i :: rest =>
      a <- py_index (nth i combos []) 0 ;;
      x <- df_get X_train a ;;
      f <- np_polyfit x y_train 3 ;;
      poly_init_loop combos rest (set_col F i (map (poly1d f) x))
  end.

Definition initialize (combos : list (list label)) : result (option matrix) :=
  let M := length combos in
  let N := df_nrows X_train in
  let mean := vmean y_train in
  F0 <- (if String.eqb (init p) "naive"
         then c <- py_truediv 1 (Z.of_nat M) ;;
              Ok (Some (mkMatrix N (repeat (map (Rmult (c * mean)) (ones N)) M)))
         else Ok None) ;;
  if String.eqb (init p) "poly"
  then F <- poly_init_loop combos (seq 0 M) (mkMatrix N (repeat (ones N) M)) ;;
       Ok (Some F)
  else Ok F0.

(** *** Lines 118-129: the noise schedule at the start of cycle [k] *)

Definition decay_block (M k : nat) (a : R) (GPR : list regressor) (next : nat)
  : R * list regressor * nat :=
  if String.eqb (use_decay_alpha p) "yes" then
    if (k <? 2)%nat then
      let (G, n) := new_regressors (make_config a) M next in (a, G, n)
    else if ((2 <=? k)%nat && (k <? 8)%nat)%bool then
      let (G, n) := new_regressors (make_config (a * (1 / 10))) M next in
      (a * (1 / 10), G, n)
    else
      let (G, n) := new_regressors (make_config a) M next in (a, G, n)
  else (a, GPR, next).

(** *** Lines 131-139: one combination of one cycle *)

Definition residual (F : matrix) (i : nat) : vec :=
  vsub y_train (sumcol F (Z.of_nat i)).

Definition blend (pred : vec) (ramp : R) (vect : vec) : vec :=
  if String.eqb (mixe p) "yes"
  then vdiv (vadd (vscale pred ramp) vect) 2
  else vscale pred ramp.

Definition update_component (combos : list (list label)) (k i : nat)
    (s : list regressor * matrix) : result (list regressor * matrix) :=
  let (GPR, F) := s in
  let vect := residual F i in
  let F1 := set_col F i vect in
  xx <- df_select X_train (nth i combos []) ;;
  g <- py_index GPR i ;;
  g' <- fit g xx (col F1 i) ;;
  let GPR' := list_set GPR i g' in
  pred <- predict g' xx ;;
  ramp <- scale_ramp (number_cycles p) k ;;
  Ok (GPR', set_col F1 i (blend pred ramp vect)).

Fixpoint inner_loop (combos : list (list label)) (k : nat) (idx : list nat)
    (s : list regressor * matrix) : result (list regressor * matrix) :=
  match idx with
  | [] => Ok s
  | i :: rest =>
      s' <- update_component combos k i s ;;
      inner_loop combos k rest s'
  end.

(** *** Lines 116-141: one cycle, and the loop over the cycles *)

Definition train_rmse (F : matrix) : R :=
  rmse (vscale y_train (scale_factor p))
       (vscale (sumcol F rowsum_sentinel) (scale_factor p)).

Definition cycle (combos : list (list label)) (k : nat) (st : fit_state)
  : result fit_state :=
  let M := length combos in
  let '(a, GPR, next) :=
    decay_block M k (st_alpha st) (st_GPR st) (st_next st) in
  F <- py_var (st_F st) ;;
  '(GPR', F') <- inner_loop combos k (seq 0 M) (GPR, F) ;;
  Ok (mkState a GPR' (Some F') (st_rmse_train st ++ [train_rmse F']) next).

Fixpoint train_loop (combos : list (list label)) (ks : list nat)
    (st : fit_state) : result fit_state :=
  match ks with
  | [] => Ok st
  | k :: rest =>
      st' <- cycle combos k st ;;
      train_loop combos rest st'
  end.

(** *** Lines 150-159: the test block *)

Fixpoint test_loop (combos : list (list label)) (GPR : list regressor)
    (idx : list nat) (s : matrix * matrix) : result (matrix * matrix) :=
  match idx with
  | [] => Ok s
  | i :: rest =>
      let (Ftest, errorbars) := s in
      xt <- df_select X_test (nth i combos []) ;;
      g <- py_index GPR i ;;
      '(m, sd) <- predict_std g xt ;;
      let Ftest' := set_col Ftest i m in
      let errorbars' := set_col errorbars i sd in
      let errorbars'' :=
        set_col errorbars' i (vmul (col errorbars' i) (col errorbars' i)) in
      test_loop combos GPR rest (Ftest', errorbars'')
  end.

(** The value returned: [(rmse_train, rmse_test, GPR, y_pred_scaled,
    error_bars * scale_factor)]. *)
Record fit_result : Type := mkResult {
  res_rmse_train : list R;
  res_rmse_test : R;
  res_GPR : list regressor;
  res_y_pred_scaled : vec;
  res_error_bars : vec
}.

Definition evaluate (combos : list (list label)) (GPR : list regressor)
    (rmse_train : list R) : result fit_result :=
  let M := length combos in
  let Nt := df_nrows X_test in
  '(Ftest, errorbars) <-
    test_loop combos GPR (seq 0 M) (zero_matrix Nt M, zero_matrix Nt M) ;;
  let ypred := sumcol Ftest rowsum_sentinel in
  let y_pred_scaled := vscale ypred (scale_factor p) in
  let error_bars := vsqrt (sumcol errorbars errorbar_sentinel) in
  let rmse_test :=
    rmse (vscale y_test (scale_factor p)) (vscale ypred (scale_factor p)) in
  Ok (mkResult rmse_train rmse_test GPR y_pred_scaled
        (vscale error_bars (scale_factor p))).

(** *** The whole call *)

(** Lines 93-141, up to the end of the train block: the combinations and
    the state in which the cycle loop ends. *)
Definition train_block : result (list (list label) * fit_state) :=
  combos <- all_combos ;;
  F0 <- initialize combos ;;
  let (GPR0, next) :=
    new_regressors (make_config (alpha p)) (length combos) 0 in
  st <- train_loop combos (py_range (number_cycles p))
          (mkState (alpha p) GPR0 F0 [] next) ;;
  Ok (combos, st).

Definition RS_HDMR_GPR : result fit_result :=
  '(combos, st) <- train_block ;;
  evaluate combos (st_GPR st) (st_rmse_train st).

End Fitter.

(** ** Small inputs

    A data set of two samples with two features, labelled 0 and 1, and the
    arguments of a call: the defaults of the signature with the given order,
    noise level, schedule switch, scale factor, number of cycles,
    initialisation and mixing switch. *)

Definition toy_X : DataFrame := mkFrame 2 [(0%nat, [0; 1]); (1%nat, [1; 0])].
Definition toy_y : vec := [1; 3].

Definition call_with (order : Z) (alpha : R) (use_decay_alpha : string)
    (scale_factor : R) (number_cycles : Z) (init mixe : string) : params :=
  mkParams order alpha use_decay_alpha scale_factor (6 / 10) number_cycles
    init "no" mixe None.

(** The state in which the cycle loop starts on [toy_X], [toy_y] with the
    single combination of both features and the naive initialisation. *)
Definition toy_combos : list (list label) := [[0%nat; 1%nat]].

Definition toy_state0 (p : params) : fit_state :=
  mkState (alpha p) (fst (new_regressors (make_config p (alpha p)) 1 0))
    (Some (mkMatrix 2 [[2; 2]])) [] 1.

(** The start of a first-order fit of the same data: two combinations, one
    per feature, the uniform split of the mean and two unfitted regressors. *)
Definition toy_combos1 : list (list label) := [[0%nat]; [1%nat]].
Definition toy_F1 : matrix := mkMatrix 2 [[1; 1]; [1; 1]].
Definition toy_GPR1 (p : params) : list regressor :=
  fst (new_regressors (make_config p (alpha p)) 2 0).

(** A component matrix with one row and 10001 columns, every cell [1 * 1]
    (a prediction 1 times a ramp 1), and a target whose single entry is the
    sum of that row. *)
Definition wide_F : matrix := mkMatrix 1 (repeat [1 * 1] (Z.to_nat 10001)).
Definition wide_y : vec := [10001].

(** A data set of one sample with [n] features, labelled [0..n-1], every
    value 1, and its first-order combinations. *)
Definition wide_X (n : nat) : DataFrame :=
  mkFrame 1 (map (fun i => (i, [1])) (seq 0 n)).
Definition wide_combos (n : nat) : list (list label) :=
  map (fun i => [i]) (seq 0 n).

Definition example_F : matrix := mkMatrix 2 [[1; 2]; [3; 4]; [5; 6]].

(** ** Notions of the specification *)

(** The sum of [f i] over the indices [idx]. *)
Fixpoint big_sum (f : nat -> R) (idx : list nat) : R :=
  match idx with
  | [] => 0
  | i :: rest => f i + big_sum f rest
  end.

(** Row [r] summed over all the columns. *)
Definition rowsum (F : matrix) (r : nat) : R :=
  big_sum (entry F r) (seq 0 (ncols F)).

(** Row [r] summed over the columns whose index is not [j]. *)
Definition rowsum_except (F : matrix) (j : Z) (r : nat) : R :=
  big_sum (entry F r)
    (filter (fun i => negb (Z.of_nat i =? j)%Z) (seq 0 (ncols F))).

(** The vector of the full row sums, and the train RMSE that the
    specification records at the end of a cycle. *)
Definition rowsums (F : matrix) : vec := map (rowsum F) (seq 0 (nrows F)).

Definition specified_train_rmse (y_train : vec) (p : params) (F : matrix) : R :=
  rmse (vscale y_train (scale_factor p)) (vscale (rowsums F) (scale_factor p)).

(** The factor by which cycle [k] of the noise schedule multiplies the
    running noise level, and the product of these factors over a list of
    cycles. *)
Definition decay_factor (k : nat) : R :=
  if ((2 <=? k)%nat && (k <? 8)%nat)%bool then 1 / 10 else 1.

Fixpoint decay_product (ks : list nat) : R :=
  match ks with
  | [] => 1
  | k :: rest => decay_factor k * decay_product rest
  end.

(** What the test loop has stored for combination [i]: the mean predicted
    by regressor [i] on the test inputs restricted to the features of the
    combination, and the square of the predicted standard deviation. *)
Definition evaluated {lib : External} (X_test : DataFrame)
    (combos : list (list label)) (GPR : list regressor)
    (Ftest errorbars : matrix) (i : nat) : Prop :=
  exists xt g m sd,
    df_select X_test (nth i combos []) = Ok xt /\
    py_index GPR i = Ok g /\
    predict_std g xt = Ok (m, sd) /\
    col Ftest i = m /\
    col errorbars i = vmul sd sd.

(** ** Subsequences

    [Subseq c l]: [c] is obtained from [l] by deleting elements. *)

Inductive Subseq {A : Type} : list A -> list A -> Prop :=
| Subseq_nil : Subseq [] []
| Subseq_skip (x : A) (c l : list A) : Subseq c l -> Subseq c (x :: l)
| Subseq_take (x : A) (c l : list A) : Subseq c l -> Subseq (x :: c) (x :: l).

(** ** The script (lines 191-192): min-max scaling

<<
    X = (x-x.min())/(x.max()-x.min())
    y = (y-y.min())/(y.max()-y.min())
>>

    [min] and [max] of a Series; on an empty Series pandas returns [nan],
    which the reals do not have: the properties below are about non-empty
    vectors. *)

Definition vmin (v : vec) : R :=
  match v with
  | [] => 0
  | x :: t => fold_left Rmin t x
  end.

Definition vmax (v : vec) : R :=
  match v with
  | [] => 0
  | x :: t => fold_left Rmax t x
  end.

(** [(v - v.min()) / (v.max() - v.min())] *)
Definition minmax (v : vec) : vec :=
  vdiv (map (fun x => x - vmin v) v) (vmax v - vmin v).

(** On a frame the minimum and the maximum are taken column by column. *)
Definition minmax_frame (X : DataFrame) : DataFrame :=
  mkFrame (df_nrows X) (map (fun c => (fst c, minmax (snd c))) (df_columns X)).

(** A test frame without the feature labelled 1. *)
Definition toy_X_short : DataFrame := mkFrame 2 [(0%nat, [0; 1])].

(** A frame whose two columns carry the same label. *)
Definition dup_X : DataFrame := mkFrame 2 [(0%nat, [0; 1]); (0%nat, [1; 0])].

(** ** Line 96 and [sumcol] in binary64

    The naive initialisation and [sumcol] once more, with the binary64
    numbers of the kernel for numpy's [float64]: the same operations in the
    same order, each one rounded to nearest as the hardware does. *)

Module Binary64.

Import PrimFloat.

Definition fvec : Type := list float.

(** An [int] as a [float64], exact below 2^53; the true division of two
    such [int]s is the division of these two numbers. *)
Fixpoint of_nat (n : nat) : float :=
  match n with
  | O => 0%float
  | S n' => (of_nat n' + 1)%float
  end.

Definition zeros (n : nat) : fvec := repeat 0%float n.
Definition ones (n : nat) : fvec := repeat 1%float n.

Definition vadd (a b : fvec) : fvec :=
  map (fun p => (fst p + snd p)%float) (combine a b).

Record fmatrix : Type := mk_fmatrix {
  fnrows : nat;
  fcols : list fvec
}.

Fixpoint sumcol_loop (cs : list fvec) (i : nat) (j : Z) (s : fvec) : fvec :=
  match cs with
  | [] => s
  | c :: rest =>
      sumcol_loop rest (S i) j (if (Z.of_nat i =? j)%Z then s else vadd s c)
  end.

Definition sumcol (F : fmatrix) (j : Z) : fvec :=
  sumcol_loop (fcols F) 0 j (zeros (fnrows F)).

(** [y_train.mean()] *)
Definition vmean (y : fvec) : float :=
  (fold_left add y 0 / of_nat (length y))%float.

(** Line 96: [(1 / M) * mean * np.ones((N, M))]. *)
Definition naive_init (N M : nat) (mean : float) : result fmatrix :=
  match M with
  | O => Raise ZeroDivisionError
  | S _ =>
      Ok (mk_fmatrix N
            (repeat (map (fun o => (1 / of_nat M * mean * o)%float) (ones N)) M))
  end.

(** Two targets of one sample. *)
Definition y_half : fvec := [0.5%float].
Definition y_49 : fvec := [49%float].

End Binary64.

(** ** Tactics *)

(** Inversion of a successful sequence of calls. *)
Ltac bind_inv H :=
  repeat match type of H with
  | bind ?c _ = Ok _ =>
      let E := fresh "E" in
      destruct c eqn:E; cbn [bind] in H; [|discriminate H]
  end.

(** Evaluation of a call on concrete data: everything is computed except the
    operations on real numbers. *)
Ltac run_call :=
  lazy -[IZR INR Rplus Rminus Rmult Rdiv Rinv Ropp Rmin sqrt pow Rlt Rle].

(** * Properties *)

(** ** Vectors *)

Lemma vmap2_length f a b :
  length (vmap2 f a b) = Nat.min (length a) (length b).
Proof. unfold vmap2. now rewrite length_map, length_combine. Qed.

Lemma vmap2_length_eq f a b n :
  length a = n -> length b = n -> length (vmap2 f a b) = n.
Proof. intros <- Hb. rewrite vmap2_length, Hb. apply Nat.min_id. Qed.

Lemma vmap2_nth f a b r :
  (r < length a)%nat -> (r < length b)%nat ->
  nth r (vmap2 f a b) 0 = f (nth r a 0) (nth r b 0).
Proof.
  revert b r. induction a as [|x a IH]; intros [|y b] [|r] Ha Hb;
    simpl in *; try lia; auto.
  apply IH; lia.
Qed.

Lemma vscale_nth v c r : nth r (vscale v c) 0 = nth r v 0 * c.
Proof.
  unfold vscale. revert r. induction v as [|x v IH]; intros [|r]; simpl;
    auto; lra.
Qed.

Lemma vscale_length v c : length (vscale v c) = length v.
Proof. apply length_map. Qed.

Lemma zeros_nth n r : nth r (zeros n) 0 = 0.
Proof.
  unfold zeros. revert r. induction n; intros [|r]; simpl; auto.
Qed.

Lemma zeros_length n : length (zeros n) = n.
Proof. apply repeat_length. Qed.

Lemma fold_left_Rplus_acc l a : fold_left Rplus l a = a + fold_left Rplus l 0.
Proof.
  revert a. induction l as [|x l IH]; intro a; simpl.
  - lra.
  - rewrite (IH (a + x)), (IH (0 + x)). lra.
Qed.

Lemma vsum_cons x l : vsum (x :: l) = x + vsum l.
Proof. unfold vsum. simpl. rewrite fold_left_Rplus_acc. lra. Qed.

Lemma vsum_nil : vsum [] = 0.
Proof. reflexivity. Qed.

(** ** Sums over index lists *)

Lemma big_sum_ext_in f g idx :
  (forall i, In i idx -> f i = g i) -> big_sum f idx = big_sum g idx.
Proof.
  induction idx as [|i idx IH]; intro H; simpl; auto.
  f_equal.
  - apply H. now left.
  - apply IH. intros; apply H; now right.
Qed.

Lemma big_sum_app f a b : big_sum f (a ++ b) = big_sum f a + big_sum f b.
Proof. induction a as [|i a IH]; simpl; [lra | rewrite IH; lra]. Qed.

Lemma big_sum_const c idx :
  big_sum (fun _ => c) idx = INR (length idx) * c.
Proof.
  induction idx as [|i idx IH].
  - simpl. lra.
  - cbn [big_sum length]. rewrite IH, S_INR. lra.
Qed.

(** Removing the single index [j] from a duplicate-free list of indices
    removes the term [f j] from the sum. *)
Lemma big_sum_filter_out f j idx :
  NoDup idx -> In j idx ->
  big_sum f (filter (fun i => negb (Nat.eqb i j)) idx) = big_sum f idx - f j.
Proof.
  induction idx as [|i idx IH]; intros Hnd Hin; [destruct Hin|].
  inversion Hnd as [|? ? Hni Hnd']; subst. simpl.
  destruct (Nat.eqb_spec i j) as [->|Hne]; simpl.
  - assert (E : filter (fun i => negb (Nat.eqb i j)) idx = idx).
    { apply forallb_filter_id, forallb_forall. intros x Hx.
      destruct (Nat.eqb_spec x j); subst; [contradiction | reflexivity]. }
    rewrite E. lra.
  - destruct Hin as [->|Hin]; [contradiction|]. rewrite IH by assumption. lra.
Qed.

Lemma filter_all {A} (f : A -> bool) l :
  (forall x, In x l -> f x = true) -> filter f l = l.
Proof. intro H. apply forallb_filter_id, forallb_forall, H. Qed.

(** ** [sumcol] *)

Lemma sumcol_loop_length cs : forall i j s n,
  Forall (fun c => length c = n) cs -> length s = n ->
  length (sumcol_loop cs i j s) = n.
Proof.
  induction cs as [|c cs IH]; intros i j s n Hcs Hs; simpl; auto.
  inversion Hcs; subst. apply IH; auto.
  destruct (Z.of_nat i =? j)%Z; auto.
  apply vmap2_length_eq; auto.
Qed.

Lemma sumcol_loop_nth cs : forall i j s n r,
  Forall (fun c => length c = n) cs -> length s = n -> (r < n)%nat ->
  nth r (sumcol_loop cs i j s) 0 =
  nth r s 0 +
  big_sum (fun c => nth r (nth (c - i) cs []) 0)
    (filter (fun c => negb (Z.of_nat c =? j)%Z) (seq i (length cs))).
Proof.
  induction cs as [|c cs IH]; intros i j s n r Hcs Hs Hr.
  - simpl. lra.
  - pose proof (Forall_inv Hcs) as Hc. pose proof (Forall_inv_tail Hcs) as Hcs'.
    cbn beta in Hc. cbn [sumcol_loop length seq filter].
    assert (Hshift :
      big_sum (fun c0 => nth r (nth (c0 - S i) cs []) 0)
        (filter (fun c0 => negb (Z.of_nat c0 =? j)%Z) (seq (S i) (length cs)))
      = big_sum (fun c0 => nth r (nth (c0 - i) (c :: cs) []) 0)
        (filter (fun c0 => negb (Z.of_nat c0 =? j)%Z) (seq (S i) (length cs)))).
    { apply big_sum_ext_in. intros x Hx.
      apply filter_In in Hx. destruct Hx as [Hx _].
      apply in_seq in Hx.
      replace (x - i)%nat with (S (x - S i)) by lia. reflexivity. }
    destruct (Z.of_nat i =? j)%Z; cbn [negb big_sum].
    + rewrite (IH (S i) j s n r); auto. now rewrite Hshift.
    + rewrite (IH (S i) j (vadd s c) n r); auto.
      * unfold vadd. rewrite vmap2_nth by lia.
        rewrite Hshift, Nat.sub_diag. cbn [nth]. lra.
      * apply vmap2_length_eq; auto.
Qed.

Lemma sumcol_length F j : wf_matrix F -> length (sumcol F j) = nrows F.
Proof.
  intro H. unfold sumcol. apply sumcol_loop_length; auto. apply zeros_length.
Qed.

(** [sumcol] sums, row by row, the columns whose index differs from [j]. *)
Lemma sumcol_nth F j r :
  wf_matrix F -> (r < nrows F)%nat ->
  nth r (sumcol F j) 0 = rowsum_except F j r.
Proof.
  intros Hwf Hr. unfold sumcol, rowsum_except, ncols.
  rewrite (sumcol_loop_nth (cols F) 0 j (zeros (nrows F)) (nrows F) r);
    auto using zeros_length.
  rewrite zeros_nth, Rplus_0_l.
  apply big_sum_ext_in. intros c _. unfold entry, col.
  now rewrite Nat.sub_0_r.
Qed.

Lemma rowsum_except_in_range F j r :
  (0 <= j < Z.of_nat (ncols F))%Z ->
  rowsum_except F j r = rowsum F r - entry F r (Z.to_nat j).
Proof.
  intro Hj. unfold rowsum_except, rowsum.
  rewrite <- (big_sum_filter_out (entry F r) (Z.to_nat j)).
  - f_equal. apply filter_ext. intro c.
    destruct (Z.eqb_spec (Z.of_nat c) j), (Nat.eqb_spec c (Z.to_nat j));
      auto; lia.
  - apply seq_NoDup.
  - apply in_seq. lia.
Qed.

Lemma rowsum_except_out_of_range F j r :
  (j < 0 \/ Z.of_nat (ncols F) <= j)%Z -> rowsum_except F j r = rowsum F r.
Proof.
  intro Hj. unfold rowsum_except, rowsum. f_equal.
  apply filter_all. intros c Hc. apply in_seq in Hc.
  destruct (Z.eqb_spec (Z.of_nat c) j); auto; lia.
Qed.

Lemma residual_nth y F i r :
  wf_matrix F -> length y = nrows F -> (r < nrows F)%nat ->
  nth r (residual y F i) 0 = nth r y 0 - rowsum_except F (Z.of_nat i) r.
Proof.
  intros Hwf Hy Hr. unfold residual, vsub.
  rewrite vmap2_nth; try (rewrite ?sumcol_length; auto; lia).
  now rewrite sumcol_nth.
Qed.

(** C2.  On a matrix with [M] columns of [N] entries each, [sumcol F j] is a
    vector of [N] entries; for [0 <= j < M] its entry at row [r] is the sum
    of the entries of row [r] in the columns other than [j] (the full row sum
    less the entry of column [j]: no other column is skipped); for [j >= M]
    it is the full row sum.  The residual [y_train - sumcol(F, i)] of the
    cycle loop is, row by row, [y_train] less the sum of the columns other
    than [i]. *)
Theorem sumcol_excludes_exactly_column_j (F : matrix) (j : Z) :
  wf_matrix F ->
  length (sumcol F j) = nrows F /\
  (forall r, (r < nrows F)%nat ->
     ((0 <= j < Z.of_nat (ncols F))%Z ->
        nth r (sumcol F j) 0 = rowsum_except F j r /\
        nth r (sumcol F j) 0 = rowsum F r - entry F r (Z.to_nat j)) /\
     ((Z.of_nat (ncols F) <= j)%Z -> nth r (sumcol F j) 0 = rowsum F r)) /\
  (forall (y_train : vec) (i r : nat),
     length y_train = nrows F -> (r < nrows F)%nat ->
     nth r (residual y_train F i) 0 =
     nth r y_train 0 - rowsum_except F (Z.of_nat i) r).
Proof.
  intro Hwf. split; [now apply sumcol_length|]. split.
  - intros r Hr. split.
    + intro Hj. rewrite sumcol_nth by assumption.
      split; [reflexivity | now apply rowsum_except_in_range].
    + intro Hj. rewrite sumcol_nth by assumption.
      apply rowsum_except_out_of_range. now right.
  - intros y i r Hy Hr. now apply residual_nth.
Qed.

(** ** [rmse] *)

Lemma big_sum_seq_shift f a n :
  big_sum f (seq (S a) n) = big_sum (fun i => f (S i)) (seq a n).
Proof.
  revert a. induction n as [|n IH]; intro a; simpl; auto.
  now rewrite IH.
Qed.

(** [np.sum] adds the entries of the vector, one per position. *)
Lemma vsum_big_sum v :
  vsum v = big_sum (fun i => nth i v 0) (seq 0 (length v)).
Proof.
  induction v as [|x v IH].
  - reflexivity.
  - rewrite vsum_cons. cbn [length seq big_sum nth].
    rewrite big_sum_seq_shift. cbn [nth]. now rewrite IH.
Qed.

Lemma vsquare_nth v r : nth r (vsquare v) 0 = nth r v 0 ^ 2.
Proof.
  unfold vsquare. revert r. induction v as [|x v IH]; intros [|r]; simpl;
    auto; lra.
Qed.

Lemma vsquare_length v : length (vsquare v) = length v.
Proof. apply length_map. Qed.

Lemma squared_error_sym a : forall b,
  vsquare (vsub a b) = vsquare (vsub b a).
Proof.
  induction a as [|x a IH]; intros [|y b]; try reflexivity.
  unfold vsquare, vsub, vmap2 in *. cbn [combine map fst snd].
  f_equal; [ring | apply IH].
Qed.

Lemma squared_error_self x : vsum (vsquare (vsub x x)) = 0.
Proof.
  induction x as [|a x IH]; [reflexivity|].
  unfold vsquare, vsub, vmap2 in *. cbn [combine map fst snd].
  rewrite vsum_cons, IH. ring.
Qed.

(** C9.  For two vectors of the same size [N >= 1], [rmse pred target] is
    the square root of the sum over the positions of [(target - pred)^2],
    divided by [N]; [rmse x x = 0]; and [rmse a b = rmse b a].  [rmse] is a
    function of its two arguments alone. *)
Theorem rmse_formula_zero_symmetric :
  (forall pred target : vec,
     length pred = length target -> (1 <= length target)%nat ->
     rmse pred target =
     sqrt (big_sum (fun i => (nth i target 0 - nth i pred 0) ^ 2)
             (seq 0 (length target)) / INR (length target))) /\
  (forall x : vec, (1 <= length x)%nat -> rmse x x = 0) /\
  (forall a b : vec,
     length a = length b -> (1 <= length a)%nat -> rmse a b = rmse b a).
Proof.
  split; [|split].
  - intros pred target Hlen _. unfold rmse. cbv zeta.
    rewrite vsum_big_sum, vsquare_length.
    unfold vsub at 2. rewrite (vmap2_length_eq _ _ _ (length target)); auto.
    do 2 f_equal. apply big_sum_ext_in. intros i Hi. apply in_seq in Hi.
    rewrite vsquare_nth. unfold vsub. rewrite vmap2_nth by lia. reflexivity.
  - intros x _. unfold rmse. cbv zeta. rewrite squared_error_self.
    unfold Rdiv. rewrite Rmult_0_l. apply sqrt_0.
  - intros a b Hlen _. unfold rmse. cbv zeta.
    now rewrite (squared_error_sym b a), Hlen.
Qed.

(** ** Initialisation *)

Lemma nth_repeat_lt {A} (x d : A) n i : (i < n)%nat -> nth i (repeat x n) d = x.
Proof.
  revert i. induction n as [|n IH]; intros [|i] H; simpl; try lia; auto.
  apply IH. lia.
Qed.

Lemma map_nth_lt (f : R -> R) l r :
  (r < length l)%nat -> nth r (map f l) 0 = f (nth r l 0).
Proof.
  revert r. induction l as [|x l IH]; intros [|r] H; simpl in *; try lia; auto.
  apply IH. lia.
Qed.

Lemma Forall_repeat {A} (P : A -> Prop) x n : P x -> Forall P (repeat x n).
Proof. intro H. induction n; simpl; constructor; auto. Qed.

(** C8, in exact real arithmetic.  With [init = 'naive'] and [M > 0]
    combinations, the initialisation succeeds and yields an [N]-by-[M]
    matrix whose cells all hold the one value [(1 / M) * mean(y_train)];
    over the reals this value is [mean(y_train) / M] and the sum of each
    row over the [M] columns is [mean(y_train)] (also as [sumcol] computes
    it for an exclusion index out of range). *)
Theorem naive_init_splits_the_mean
    {lib : External} (X_train : DataFrame) (y_train : vec) (p : params)
    (combos : list (list label)) :
  init p = "naive"%string -> (0 < length combos)%nat ->
  exists F : matrix,
    initialize X_train y_train p combos = Ok (Some F) /\
    nrows F = df_nrows X_train /\ ncols F = length combos /\ wf_matrix F /\
    (forall r i, (r < nrows F)%nat -> (i < ncols F)%nat ->
       entry F r i = vmean y_train / INR (length combos)) /\
    (forall r, (r < nrows F)%nat -> rowsum F r = vmean y_train) /\
    (forall r, (r < nrows F)%nat ->
       nth r (sumcol F (Z.of_nat (ncols F))) 0 = vmean y_train).
Proof.
  intros Hinit HM.
  set (M := length combos) in *. set (N := df_nrows X_train).
  set (c := IZR 1 / IZR (Z.of_nat M)).
  set (F := mkMatrix N (repeat (map (Rmult (c * vmean y_train)) (ones N)) M)).
  assert (HMR : INR M <> 0) by (apply not_0_INR; lia).
  assert (Hcell : forall r i, (r < N)%nat -> (i < M)%nat ->
            entry F r i = vmean y_train / INR M).
  { intros r i Hr Hi. unfold entry, col, F. cbn [cols].
    rewrite nth_repeat_lt by assumption.
    rewrite map_nth_lt by (unfold ones; now rewrite repeat_length).
    unfold ones. rewrite nth_repeat_lt by assumption.
    unfold c. rewrite <- INR_IZR_INZ. field. exact HMR. }
  assert (Hwf : wf_matrix F).
  { unfold wf_matrix, F. cbn [cols nrows]. apply Forall_repeat.
    unfold ones. now rewrite length_map, repeat_length. }
  assert (Hrow : forall r, (r < N)%nat -> rowsum F r = vmean y_train).
  { intros r Hr. unfold rowsum.
    rewrite (big_sum_ext_in _ (fun _ => vmean y_train / INR M)).
    - rewrite big_sum_const, length_seq. unfold ncols, F. cbn [cols].
      rewrite repeat_length. field. exact HMR.
    - intros i Hi. apply in_seq in Hi. apply Hcell; auto.
      unfold ncols, F in Hi. cbn [cols] in Hi. rewrite repeat_length in Hi. lia. }
  exists F. split; [|split; [|split; [|split; [|split; [|split]]]]]; auto.
  - unfold initialize. rewrite Hinit. cbn [String.eqb Ascii.eqb Bool.eqb].
    unfold py_truediv. fold M.
    destruct (Z.eqb_spec (Z.of_nat M) 0) as [E|_]; [lia|]. reflexivity.
  - unfold ncols, F. cbn [cols]. apply repeat_length.
  - intros r i Hr Hi. apply Hcell; auto.
    unfold ncols, F in Hi. cbn [cols] in Hi. now rewrite repeat_length in Hi.
  - intros r Hr. rewrite sumcol_nth by assumption.
    rewrite rowsum_except_out_of_range by (right; lia). now apply Hrow.
Qed.

(** The claim of C8 fails on the program's own numbers.  In binary64, with
    one sample and the 20 combinations of the script (6 features, order 3)
    and a target of mean 0.5, the row sum that [sumcol] computes is
    0.5000000000000001, not the mean; and with 49 combinations and a target
    of mean 49 the cell [(1 / 49) * 49] is 0.9999999999999999, not
    [49 / 49]. *)
Lemma naive_init_is_not_exact_in_binary64 :
  (exists F s,
     Binary64.naive_init 1 20 (Binary64.vmean Binary64.y_half) = Ok F /\
     Binary64.sumcol F 10000 = [s] /\
     PrimFloat.eqb s (Binary64.vmean Binary64.y_half) = false /\
     PrimFloat.ltb (Binary64.vmean Binary64.y_half) s = true) /\
  (exists F c,
     Binary64.naive_init 1 49 (Binary64.vmean Binary64.y_49) = Ok F /\
     nth 0 (Binary64.fcols F) [] = [c] /\
     PrimFloat.eqb c
       (PrimFloat.div (Binary64.vmean Binary64.y_49) (Binary64.of_nat 49)) =
     false).
Proof.
  split.
  - eexists. eexists. split; [reflexivity|].
    split; [vm_compute; reflexivity|].
    split; vm_compute; reflexivity.
  - eexists. eexists. split; [reflexivity|].
    split; vm_compute; reflexivity.
Qed.

(** ** The scale ramp *)

Lemma scale_ramp_defined (number_cycles : Z) (k : nat) :
  (3 <= number_cycles)%Z ->
  scale_ramp number_cycles k =
  Ok (Rmin 1 (IZR (Z.of_nat k + 1) / IZR (number_cycles / 3) + 1 / 2)).
Proof.
  intro H. unfold scale_ramp, py_truediv, maxscaledowncycle.
  rewrite Z.quot_div_nonneg by lia.
  assert (0 < number_cycles / 3)%Z by (apply Z.div_str_pos; lia).
  destruct (Z.eqb_spec (number_cycles / 3) 0); [lia | reflexivity].
Qed.

(** C3.  With [number_cycles] 1 or 2, [int(number_cycles / 3)] is 0 and the
    division of the scale ramp raises [ZeroDivisionError] at every cycle
    index; a call with one cycle on a two-sample data set with one
    combination therefore raises it at its first update. *)
Theorem scale_ramp_divides_by_zero_below_three_cycles :
  (forall k : nat,
     scale_ramp 1 k = Raise ZeroDivisionError /\
     scale_ramp 2 k = Raise ZeroDivisionError) /\
  RS_HDMR_GPR (lib := constant_stub) toy_X toy_y toy_X toy_y
    (call_with 2 1 "no" 1 1 "naive" "no") = Raise ZeroDivisionError.
Proof.
  split.
  - intro k. split; reflexivity.
  - vm_compute. reflexivity.
Qed.

(** ** The combinations *)

Lemma binom_0_r n : binom n 0 = 1%nat.
Proof. destruct n; reflexivity. Qed.

Lemma binom_gt n : forall k, (n < k)%nat -> binom n k = 0%nat.
Proof.
  induction n as [|n IH]; intros [|k] H; simpl; try lia.
  rewrite !IH by lia. reflexivity.
Qed.

Lemma binom_diag n : binom n n = 1%nat.
Proof.
  induction n as [|n IH]; simpl; auto.
  rewrite IH, binom_gt by lia. reflexivity.
Qed.

(** [binom] is the quotient of factorials. *)
Lemma binom_fact n : forall k, (k <= n)%nat ->
  (binom n k * (fact k * fact (n - k)) = fact n)%nat.
Proof.
  induction n as [|n IH]; intros [|k] H; try lia.
  - reflexivity.
  - rewrite binom_0_r, Nat.sub_0_r. simpl fact at 1. lia.
  - destruct (Nat.eq_dec k n) as [->|Hne].
    + cbn [binom]. rewrite binom_diag, binom_gt, Nat.sub_diag by lia.
      simpl fact at 2. lia.
    + assert (Hk : (k <= n)%nat) by lia.
      assert (HSk : (S k <= n)%nat) by lia.
      pose proof (IH k Hk) as H1. pose proof (IH (S k) HSk) as H2.
      cbn [binom]. change (S n - S k)%nat with (n - k)%nat.
      replace (n - k)%nat with (S (n - S k)) in * by lia.
      change (fact (S n)) with (S n * fact n)%nat.
      change (fact (S k)) with (S k * fact k)%nat in *.
      change (fact (S (n - S k))) with (S (n - S k) * fact (n - S k))%nat in *.
      assert (E : S n = (S k + S (n - S k))%nat) by lia.
      rewrite E at 1. nia.
Qed.

Lemma combinations_length {A} (l : list A) : forall r,
  length (combinations l r) = binom (length l) r.
Proof.
  induction l as [|x l IH]; intros [|r]; try reflexivity.
  cbn [combinations length binom]. now rewrite length_app, length_map, !IH.
Qed.

Lemma combinations_each_length {A} (l : list A) : forall r,
  Forall (fun c => length c = r) (combinations l r).
Proof.
  induction l as [|x l IH]; intros [|r]; cbn [combinations];
    try (repeat constructor).
  apply Forall_app. split.
  - apply Forall_map. eapply Forall_impl; [|apply IH].
    intros c Hc. cbn. now rewrite Hc.
  - apply IH.
Qed.

Lemma combinations_incl {A} (l : list A) : forall r c,
  In c (combinations l r) -> incl c l.
Proof.
  induction l as [|x l IH]; intros [|r] c Hc; cbn [combinations] in Hc.
  - destruct Hc as [<-|[]]. apply incl_nil_l.
  - destruct Hc.
  - destruct Hc as [<-|[]]. apply incl_nil_l.
  - apply in_app_or in Hc. destruct Hc as [Hc|Hc].
    + apply in_map_iff in Hc. destruct Hc as (c' & <- & Hc').
      apply incl_cons; [now left|]. apply incl_tl. eapply IH; eauto.
    + apply incl_tl. eapply IH; eauto.
Qed.

Lemma combinations_each_NoDup {A} (l : list A) : forall r,
  NoDup l -> Forall (@NoDup A) (combinations l r).
Proof.
  induction l as [|x l IH]; intros [|r] Hnd; cbn [combinations];
    try (repeat constructor).
  inversion Hnd as [|? ? Hx Hl]; subst.
  apply Forall_app. split; [|now apply IH].
  apply Forall_forall. intros c Hc.
  apply in_map_iff in Hc. destruct Hc as (c' & <- & Hc').
  constructor.
  - intro Hin. apply Hx. eapply combinations_incl; eauto.
  - pose proof (IH r Hl) as Hall. rewrite Forall_forall in Hall. auto.
Qed.

Lemma NoDup_map_cons {A} (x : A) (cs : list (list A)) :
  NoDup cs -> NoDup (map (cons x) cs).
Proof.
  induction 1 as [|c cs Hc Hcs IH]; cbn [map]; constructor; auto.
  intro Hin. apply in_map_iff in Hin. destruct Hin as (c' & E & Hc').
  inversion E; subst. contradiction.
Qed.

Lemma NoDup_app_disjoint {A} (a b : list A) :
  NoDup a -> NoDup b -> (forall c, In c a -> ~ In c b) -> NoDup (a ++ b).
Proof.
  induction 1 as [|h a Hh Ha IH]; intros Hb Hdisj; cbn [app]; auto.
  constructor.
  - intro Hin. apply in_app_or in Hin. destruct Hin as [Hin|Hin]; auto.
    apply (Hdisj h); [now left | assumption].
  - apply IH; auto. intros c Hc. apply Hdisj. now right.
Qed.

Lemma combinations_NoDup {A} (l : list A) : forall r,
  NoDup l -> NoDup (combinations l r).
Proof.
  induction l as [|x l IH]; intros [|r] Hnd; cbn [combinations];
    try (repeat constructor; simpl; tauto).
  inversion Hnd as [|? ? Hx Hl]; subst.
  apply NoDup_app_disjoint; auto using NoDup_map_cons.
  intros c Hc Hc'. apply in_map_iff in Hc. destruct Hc as (c' & <- & _).
  apply Hx. apply (combinations_incl l (S r) (x :: c') Hc'). now left.
Qed.

Lemma combinations_nonempty {A} (l : list A) r :
  (r <= length l)%nat -> (0 < length (combinations l r))%nat.
Proof.
  intro H. rewrite combinations_length.
  pose proof (binom_fact (length l) r H) as E.
  pose proof (lt_O_fact (length l)).
  destruct (binom (length l) r); simpl in E; lia.
Qed.

(** ** Calls with an order out of range *)

Section OrderOutOfRange.

Context {lib : External}.
Variables (X_train : DataFrame) (y_train : vec).
Variables (X_test : DataFrame) (y_test : vec).
Variable p : params.

Lemma all_combos_negative_order :
  (order p < 0)%Z -> all_combos X_train p = Raise ValueError.
Proof.
  intro H. unfold all_combos, itertools_combinations.
  destruct (Z.ltb_spec (order p) 0); [reflexivity | lia].
Qed.

Lemma all_combos_order_above_D :
  (Z.of_nat (length (df_labels X_train)) < order p)%Z ->
  all_combos X_train p = Ok [].
Proof.
  intro H. unfold all_combos, itertools_combinations.
  destruct (Z.ltb_spec (order p) 0); [lia|]. f_equal.
  apply length_zero_iff_nil. rewrite combinations_length.
  apply binom_gt. lia.
Qed.

Lemma all_combos_order_in_range :
  (0 <= order p)%Z ->
  all_combos X_train p =
  Ok (combinations (df_labels X_train) (Z.to_nat (order p))).
Proof.
  intro H. unfold all_combos, itertools_combinations.
  destruct (Z.ltb_spec (order p) 0); [lia | reflexivity].
Qed.

(** Without combinations a cycle fits nothing: it only records an RMSE. *)
Lemma cycle_no_combos k st F :
  st_F st = Some F -> st_GPR st = [] ->
  exists a n,
    cycle X_train y_train p [] k st =
    Ok (mkState a [] (Some F)
          (st_rmse_train st ++ [train_rmse y_train p F]) n).
Proof.
  intros HF HG. unfold cycle, decay_block, new_regressors.
  rewrite HF, HG. cbn [length seq map py_var bind inner_loop].
  destruct (String.eqb (use_decay_alpha p) "yes");
    [destruct (k <? 2)%nat; [|destruct ((2 <=? k)%nat && (k <? 8)%nat)%bool]|];
    eexists; eexists; reflexivity.
Qed.

Lemma train_loop_no_combos ks : forall st F,
  st_F st = Some F -> st_GPR st = [] ->
  exists st',
    train_loop X_train y_train p [] ks st = Ok st' /\
    st_GPR st' = [] /\ st_F st' = Some F /\
    length (st_rmse_train st') = (length (st_rmse_train st) + length ks)%nat.
Proof.
  induction ks as [|k ks IH]; intros st F HF HG.
  - exists st. cbn. repeat split; auto.
  - destruct (cycle_no_combos k st F HF HG) as (a & n & Hc).
    cbn [train_loop]. rewrite Hc. cbn [bind].
    destruct (IH (mkState a [] (Some F)
                    (st_rmse_train st ++ [train_rmse y_train p F]) n) F)
      as (st' & Hrun & HG' & HF' & Hlen); auto.
    exists st'. repeat split; auto.
    rewrite Hlen. cbn [st_rmse_train length]. rewrite length_app. cbn. lia.
Qed.

(** With [init = 'naive'] an empty list of combinations makes [1 / M] raise. *)
Lemma call_naive_order_above_D :
  init p = "naive"%string ->
  (Z.of_nat (length (df_labels X_train)) < order p)%Z ->
  RS_HDMR_GPR X_train y_train X_test y_test p = Raise ZeroDivisionError.
Proof.
  intros Hinit H. unfold RS_HDMR_GPR, train_block.
  rewrite all_combos_order_above_D by assumption. cbn [bind].
  unfold initialize. rewrite Hinit. reflexivity.
Qed.

(** With [init = 'poly'] it makes every loop over the combinations empty:
    the call returns, with no regressor and one RMSE per cycle. *)
Lemma call_poly_order_above_D :
  init p = "poly"%string ->
  (Z.of_nat (length (df_labels X_train)) < order p)%Z ->
  exists res,
    RS_HDMR_GPR X_train y_train X_test y_test p = Ok res /\
    res_GPR res = [] /\
    length (res_rmse_train res) = Z.to_nat (number_cycles p).
Proof.
  intros Hinit H. unfold RS_HDMR_GPR, train_block.
  rewrite all_combos_order_above_D by assumption. cbn [bind].
  unfold initialize. rewrite Hinit.
  cbn [String.eqb Ascii.eqb Bool.eqb length seq poly_init_loop bind repeat].
  cbn [new_regressors seq map].
  destruct (train_loop_no_combos (py_range (number_cycles p))
              (mkState (alpha p) [] (Some (mkMatrix (df_nrows X_train) []))
                 [] (0 + 0)) (mkMatrix (df_nrows X_train) []))
    as (st' & Hrun & HG & HF & Hlen); auto.
  rewrite Hrun. cbn [bind]. unfold evaluate.
  cbn [length seq test_loop bind]. eexists. split; [reflexivity|].
  cbn [res_GPR res_rmse_train]. split; [assumption|].
  rewrite Hlen. unfold py_range. now rewrite length_seq.
Qed.

End OrderOutOfRange.

(** *** An order of zero *)

Lemma is_ok_bind_false {A B} (c : result A) (k : A -> result B) :
  is_ok c = false -> is_ok (bind c k) = false.
Proof. destruct c; [discriminate | reflexivity]. Qed.

Lemma all_combos_order_zero X_train p :
  order p = 0%Z -> all_combos X_train p = Ok [[]].
Proof.
  intro Ho. unfold all_combos, itertools_combinations. rewrite Ho.
  cbn [Z.ltb Z.compare Z.to_nat]. now destruct (df_labels X_train).
Qed.

Section OrderZero.

Context {lib : External}.
Variables (X_train : DataFrame) (y_train : vec).
Variables (X_test : DataFrame) (y_test : vec).
Variable p : params.

(** The library rejects an input without feature column. *)
Hypothesis fit_rejects_no_feature :
  forall cfg y, is_ok (gpr_fit cfg [] y) = false.
Hypothesis predict_rejects_no_feature :
  forall cfg st, is_ok (gpr_predict cfg st []) = false.

Lemma update_component_no_feature combos k i GPR F :
  nth i combos [] = [] ->
  is_ok (update_component X_train y_train p combos k i (GPR, F)) = false.
Proof.
  intro Hc. unfold update_component. rewrite Hc. cbn [df_select bind].
  destruct (py_index GPR i) as [g|e]; [|reflexivity]. cbn [bind].
  apply is_ok_bind_false. unfold fit. apply is_ok_bind_false.
  apply fit_rejects_no_feature.
Qed.

Lemma cycle_no_feature k st :
  is_ok (cycle X_train y_train p [[]] k st) = false.
Proof.
  unfold cycle.
  destruct (decay_block p (length [[]]) k (st_alpha st) (st_GPR st)
              (st_next st)) as [[a G] n].
  destruct (st_F st) as [F|]; [|reflexivity]. cbn [py_var bind].
  apply is_ok_bind_false. cbn [length seq inner_loop].
  apply is_ok_bind_false. now apply update_component_no_feature.
Qed.

Lemma evaluate_no_feature GPR h :
  is_ok (evaluate X_test y_test p [[]] GPR h) = false.
Proof.
  unfold evaluate. apply is_ok_bind_false.
  cbn [length seq test_loop nth df_select bind].
  destruct (py_index GPR 0) as [g|e]; [|reflexivity]. cbn [bind].
  apply is_ok_bind_false. unfold predict_std.
  apply predict_rejects_no_feature.
Qed.

Lemma call_order_zero_fails :
  order p = 0%Z ->
  is_ok (RS_HDMR_GPR X_train y_train X_test y_test p) = false.
Proof.
  intro Ho. unfold RS_HDMR_GPR, train_block.
  rewrite all_combos_order_zero by assumption. cbn [bind].
  destruct (initialize X_train y_train p [[]]) as [F0|e]; [|reflexivity].
  cbn [bind new_regressors]. unfold py_range.
  destruct (Z.to_nat (number_cycles p)) as [|m].
  - cbn [seq train_loop bind]. apply evaluate_no_feature.
  - apply is_ok_bind_false. cbn [seq train_loop].
    repeat apply is_ok_bind_false. apply cycle_no_feature.
Qed.

End OrderZero.

(** C4, as the code has it.  A call with [order < 1] fails: a negative order
    makes the enumeration raise [ValueError], and with [order = 0] the single
    empty combination selects no feature, which the regression library
    rejects (as scikit-learn does).  An order above the number [D] of
    feature columns yields no combination: with [init = 'naive'] the call
    then raises [ZeroDivisionError], but with [init = 'poly'] it returns, a
    result with no regressor.  For [1 <= order <= D] the enumeration
    succeeds and yields exactly C(D, order) combinations
    (C(D, r) r! (D-r)! = D!), each made of [order] identifiers of feature
    columns, which are distinct when the column labels of the data set
    are. *)
Theorem order_below_one_fails_and_enumeration
    {lib : External} (X_train : DataFrame) (y_train : vec)
    (X_test : DataFrame) (y_test : vec) (p : params) :
  ((order p < 0)%Z ->
     RS_HDMR_GPR X_train y_train X_test y_test p = Raise ValueError) /\
  (order p = 0%Z ->
     (forall cfg y, is_ok (gpr_fit cfg [] y) = false) ->
     (forall cfg st, is_ok (gpr_predict cfg st []) = false) ->
     is_ok (RS_HDMR_GPR X_train y_train X_test y_test p) = false) /\
  ((Z.of_nat (length (df_labels X_train)) < order p)%Z ->
     (init p = "naive"%string ->
      RS_HDMR_GPR X_train y_train X_test y_test p = Raise ZeroDivisionError) /\
     (init p = "poly"%string ->
      exists res,
        RS_HDMR_GPR X_train y_train X_test y_test p = Ok res /\
        res_GPR res = [] /\
        length (res_rmse_train res) = Z.to_nat (number_cycles p))) /\
  ((1 <= order p <= Z.of_nat (length (df_labels X_train)))%Z ->
     exists combos,
       all_combos X_train p = Ok combos /\
       length combos =
         binom (length (df_labels X_train)) (Z.to_nat (order p)) /\
       (binom (length (df_labels X_train)) (Z.to_nat (order p)) *
        (fact (Z.to_nat (order p)) *
         fact (length (df_labels X_train) - Z.to_nat (order p))) =
        fact (length (df_labels X_train)))%nat /\
       (0 < length combos)%nat /\
       Forall (fun c => length c = Z.to_nat (order p) /\
                        incl c (df_labels X_train)) combos /\
       (NoDup (df_labels X_train) -> Forall (@NoDup label) combos)).
Proof.
  split; [|split; [|split]].
  - intro H. unfold RS_HDMR_GPR, train_block.
    now rewrite all_combos_negative_order.
  - intros Ho Hfit Hpred. now apply call_order_zero_fails.
  - intro H. split; intro Hinit.
    + now apply call_naive_order_above_D.
    + now apply call_poly_order_above_D.
  - intro H. exists (combinations (df_labels X_train) (Z.to_nat (order p))).
    split; [apply all_combos_order_in_range; lia|].
    split; [apply combinations_length|].
    split; [apply binom_fact; lia|].
    split; [apply combinations_nonempty; lia|].
    split.
    + apply Forall_forall. intros c Hc. split.
      * pose proof (combinations_each_length (df_labels X_train)
                      (Z.to_nat (order p))) as Hall.
        rewrite Forall_forall in Hall. auto.
      * eapply combinations_incl; eauto.
    + intro Hnd. now apply combinations_each_NoDup.
Qed.

Lemma order_below_one_fails_and_enumeration_witness :
  RS_HDMR_GPR (lib := strict_stub) toy_X toy_y toy_X toy_y
    (call_with (-1) 1 "no" 1 10 "naive" "no") = Raise ValueError /\
  is_ok (RS_HDMR_GPR (lib := strict_stub) toy_X toy_y toy_X toy_y
           (call_with 0 1 "no" 1 10 "naive" "no")) = false /\
  RS_HDMR_GPR (lib := strict_stub) toy_X toy_y toy_X toy_y
    (call_with 3 1 "no" 1 10 "naive" "no") = Raise ZeroDivisionError /\
  (exists res,
     RS_HDMR_GPR (lib := strict_stub) toy_X toy_y toy_X toy_y
       (call_with 3 1 "no" 1 10 "poly" "no") = Ok res /\
     res_GPR res = [] /\ length (res_rmse_train res) = 10%nat) /\
  (exists combos,
     all_combos toy_X (call_with 1 1 "no" 1 10 "naive" "no") = Ok combos /\
     length combos = 2%nat /\ Forall (@NoDup label) combos).
Proof.
  split; [|split; [|split; [|split]]].
  - apply (order_below_one_fails_and_enumeration (lib := strict_stub)).
    reflexivity.
  - apply (order_below_one_fails_and_enumeration (lib := strict_stub)).
    + reflexivity.
    + intros cfg y. reflexivity.
    + intros cfg st. reflexivity.
  - apply (order_below_one_fails_and_enumeration (lib := strict_stub)).
    + reflexivity.
    + reflexivity.
  - apply (order_below_one_fails_and_enumeration (lib := strict_stub)
             toy_X toy_y toy_X toy_y (call_with 3 1 "no" 1 10 "poly" "no")).
    + reflexivity.
    + reflexivity.
  - destruct (order_below_one_fails_and_enumeration (lib := strict_stub)
                toy_X toy_y toy_X toy_y (call_with 1 1 "no" 1 10 "naive" "no"))
      as (_ & _ & _ & H).
    destruct H as (combos & Hc & Hlen & _ & _ & _ & Hnd); [cbn; lia|].
    exists combos. split; [exact Hc|]. split; [exact Hlen|].
    apply Hnd. cbn.
    constructor; [intros [H|[]]; discriminate H|].
    constructor; [intros []|constructor].
Defined.

(** The claim of C4 fails for an order above [D] with the polynomial
    initialisation: on the two-feature data set, order 3 and a library whose
    every call raises, the call returns.  Its identifiers are not always
    distinct either: on a frame whose two columns carry the same label, the
    one combination of order 2 holds that label twice. *)
Lemma order_above_D_returns_and_repeated_label_is_enumerated :
  is_ok (RS_HDMR_GPR (lib := failing_stub) toy_X toy_y toy_X toy_y
           (call_with 3 1 "no" 1 10 "poly" "no")) = true /\
  (all_combos dup_X (call_with 2 1 "no" 1 10 "naive" "no") =
     Ok [[0%nat; 0%nat]] /\
   ~ NoDup [0%nat; 0%nat]).
Proof.
  split; [vm_compute; reflexivity|].
  split; [reflexivity|].
  intro H. inversion H as [|? ? Hin _]. apply Hin. now left.
Qed.

(** ** The regressors through the cycle loop *)

Lemma list_set_length {A} (l : list A) : forall i x,
  length (list_set l i x) = length l.
Proof.
  induction l as [|h l IH]; intros [|i] x; cbn [list_set length]; auto.
Qed.

Lemma map_list_set_same {A B} (f : A -> B) (l : list A) : forall i x y,
  nth_error l i = Some x -> f y = f x ->
  map f (list_set l i y) = map f l.
Proof.
  induction l as [|h l IH]; intros [|i] x y Hn Hf; cbn in *; try discriminate.
  - injection Hn as ->. now rewrite Hf.
  - f_equal. eapply IH; eauto.
Qed.

Lemma list_set_nth_same {A} (l : list A) d : forall i x,
  (i < length l)%nat -> nth i (list_set l i x) d = x.
Proof.
  induction l as [|h l IH]; intros [|i] x H; cbn in *; try lia; auto.
  apply IH. lia.
Qed.

Lemma list_set_nth_other {A} (l : list A) d : forall i j x,
  i <> j -> nth j (list_set l i x) d = nth j l d.
Proof.
  induction l as [|h l IH]; intros [|i] [|j] x H; cbn; auto; try congruence.
Qed.

Lemma map_add_seq next n : forall a,
  map (fun i => (next + i)%nat) (seq a n) = seq (next + a) n.
Proof.
  induction n as [|n IH]; intro a; cbn [seq map]; auto.
  rewrite IH. now rewrite Nat.add_succ_r.
Qed.

Lemma map_const_seq {A} (c : A) n : forall a,
  map (fun _ => c) (seq a n) = repeat c n.
Proof. induction n as [|n IH]; intro a; cbn; [|rewrite IH]; auto. Qed.

Lemma py_index_Ok {A} (l : list A) i x :
  py_index l i = Ok x -> nth_error l i = Some x.
Proof.
  unfold py_index. destruct (nth_error l i); intro H; now inversion H.
Qed.

(** The regressors that the schedule constructs. *)
Lemma new_regressors_spec cfg n next :
  let G := fst (new_regressors cfg n next) in
  snd (new_regressors cfg n next) = (next + n)%nat /\
  length G = n /\ map rid G = seq next n /\
  map config G = repeat cfg n /\
  Forall (fun g => fitted_on g = None) G.
Proof.
  cbn [new_regressors fst snd]. split; [reflexivity|].
  split; [now rewrite length_map, length_seq|].
  split.
  - rewrite map_map. cbn [rid]. rewrite map_add_seq. f_equal. lia.
  - split.
    + rewrite map_map. cbn [config]. apply map_const_seq.
    + apply Forall_map, Forall_forall. reflexivity.
Qed.

Section TrainLoop.

Context {lib : External}.
Variables (X_train : DataFrame) (y_train : vec) (p : params).
Variable combos : list (list label).

(** [fit] keeps the identity and the configuration of the object. *)
Lemma fit_same_object g X y g' :
  fit g X y = Ok g' ->
  rid g' = rid g /\ config g' = config g /\ fitted_on g' = Some (X, y).
Proof.
  unfold fit. intro H. bind_inv H. injection H as <-. auto.
Qed.

Lemma update_component_regressors k i GPR F GPR' F' :
  update_component X_train y_train p combos k i (GPR, F) = Ok (GPR', F') ->
  map rid GPR' = map rid GPR /\ map config GPR' = map config GPR.
Proof.
  unfold update_component. intro H. bind_inv H. injection H as <- <-.
  match goal with Hf : fit _ _ _ = Ok _ |- _ =>
    apply fit_same_object in Hf; destruct Hf as (Hid & Hcfg & _) end.
  match goal with Hi : py_index _ _ = Ok _ |- _ => apply py_index_Ok in Hi end.
  split; eapply map_list_set_same; eauto.
Qed.

Lemma inner_loop_regressors k idx : forall GPR F GPR' F',
  inner_loop X_train y_train p combos k idx (GPR, F) = Ok (GPR', F') ->
  map rid GPR' = map rid GPR /\ map config GPR' = map config GPR.
Proof.
  induction idx as [|i idx IH]; intros GPR F GPR' F' H; cbn [inner_loop] in H.
  - injection H as <- <-. auto.
  - bind_inv H. destruct a as [G1 F1].
    apply IH in H. destruct H as [-> ->].
    eapply update_component_regressors; eauto.
Qed.

End TrainLoop.

Section Schedule.

Context {lib : External}.
Variables (X_train : DataFrame) (y_train : vec) (p : params).
Variable combos : list (list label).

Lemma decay_block_yes k a GPR next :
  use_decay_alpha p = "yes"%string ->
  decay_block p (length combos) k a GPR next =
  (a * decay_factor k,
   fst (new_regressors (make_config p (a * decay_factor k)) (length combos) next),
   (next + (length combos))%nat).
Proof.
  intro H. unfold decay_block, decay_factor. rewrite H.
  cbn [String.eqb Ascii.eqb Bool.eqb new_regressors fst].
  destruct (Nat.ltb_spec k 2) as [Hk|Hk].
  - replace ((2 <=? k)%nat && (k <? 8)%nat)%bool with false
      by (destruct (Nat.leb_spec 2 k); [lia | reflexivity]).
    now rewrite Rmult_1_r.
  - destruct ((2 <=? k)%nat && (k <? 8)%nat)%bool; [reflexivity|].
    now rewrite Rmult_1_r.
Qed.

Lemma decay_block_no k a GPR next :
  use_decay_alpha p <> "yes"%string ->
  decay_block p (length combos) k a GPR next = (a, GPR, next).
Proof.
  intro H. unfold decay_block.
  apply String.eqb_neq in H. now rewrite H.
Qed.

Lemma cycle_yes k st st' :
  use_decay_alpha p = "yes"%string ->
  cycle X_train y_train p combos k st = Ok st' ->
  st_alpha st' = st_alpha st * decay_factor k /\
  st_next st' = (st_next st + (length combos))%nat /\
  map rid (st_GPR st') = seq (st_next st) (length combos) /\
  map config (st_GPR st') = repeat (make_config p (st_alpha st')) (length combos).
Proof.
  intros Hyes H. unfold cycle in H.
  rewrite decay_block_yes in H by assumption.
  bind_inv H. destruct a0 as [G F']. injection H as <-.
  cbn [st_alpha st_next st_GPR].
  match goal with Hi : inner_loop _ _ _ _ _ _ _ = Ok _ |- _ =>
    apply inner_loop_regressors in Hi; destruct Hi as [Hid Hcfg] end.
  rewrite Hid, Hcfg.
  destruct (new_regressors_spec (make_config p (st_alpha st * decay_factor k))
              (length combos) (st_next st)) as (_ & _ & Hr & Hc & _).
  auto.
Qed.

Lemma cycle_no k st st' :
  use_decay_alpha p <> "yes"%string ->
  cycle X_train y_train p combos k st = Ok st' ->
  st_alpha st' = st_alpha st /\ st_next st' = st_next st /\
  map rid (st_GPR st') = map rid (st_GPR st) /\
  map config (st_GPR st') = map config (st_GPR st).
Proof.
  intros Hno H. unfold cycle in H.
  rewrite decay_block_no in H by assumption.
  bind_inv H. destruct a0 as [G F']. injection H as <-.
  cbn [st_alpha st_next st_GPR].
  match goal with Hi : inner_loop _ _ _ _ _ _ _ = Ok _ |- _ =>
    apply inner_loop_regressors in Hi; destruct Hi as [Hid Hcfg] end.
  auto.
Qed.

Lemma train_loop_no ks : forall st st',
  use_decay_alpha p <> "yes"%string ->
  train_loop X_train y_train p combos ks st = Ok st' ->
  st_alpha st' = st_alpha st /\ st_next st' = st_next st /\
  map rid (st_GPR st') = map rid (st_GPR st) /\
  map config (st_GPR st') = map config (st_GPR st).
Proof.
  induction ks as [|k ks IH]; intros st st' Hno H; cbn [train_loop] in H.
  - injection H as <-. auto.
  - bind_inv H. apply IH in H; [|assumption].
    match goal with Hc : cycle _ _ _ _ _ _ = Ok _ |- _ =>
      apply cycle_no in Hc; [|assumption];
      destruct Hc as (Ha & Hn & Hid & Hcfg) end.
    destruct H as (-> & -> & -> & ->). auto.
Qed.

Lemma train_loop_yes ks : forall st st',
  use_decay_alpha p = "yes"%string -> ks <> [] ->
  train_loop X_train y_train p combos ks st = Ok st' ->
  st_alpha st' = st_alpha st * decay_product ks /\
  map config (st_GPR st') = repeat (make_config p (st_alpha st')) (length combos) /\
  map rid (st_GPR st') = seq (st_next st + (length ks - 1) * (length combos)) (length combos).
Proof.
  induction ks as [|k ks IH]; intros st st' Hyes Hne H; [congruence|].
  cbn [train_loop] in H. bind_inv H.
  match goal with Hc : cycle _ _ _ _ _ _ = Ok _ |- _ =>
    apply cycle_yes in Hc; [|assumption];
    destruct Hc as (Ha & Hn & Hid & Hcfg) end.
  destruct ks as [|k' ks'].
  - cbn [train_loop] in H. injection H as <-.
    cbn [decay_product length]. rewrite Rmult_1_r.
    replace (st_next st + (1 - 1) * (length combos))%nat with (st_next st) by lia. auto.
  - apply IH in H; [|assumption|discriminate].
    destruct H as (Ha' & Hcfg' & Hid').
    split; [|split]; auto.
    + rewrite Ha', Ha. cbn [decay_product]. ring.
    + rewrite Hid', Hn. f_equal. cbn [length]. lia.
Qed.

End Schedule.

(** The product of the factors of cycles [0..k]. *)
Lemma decay_product_app a b :
  decay_product (a ++ b) = decay_product a * decay_product b.
Proof. induction a as [|k a IH]; cbn; [|rewrite IH]; ring. Qed.

Lemma decay_product_first_cycles k :
  decay_product (seq 0 (S k)) = (1 / 10) ^ Nat.min (k - 1) 6.
Proof.
  induction k as [|k IH]; [cbn; unfold decay_factor; cbn; ring|].
  rewrite seq_S, decay_product_app, IH. cbn [Nat.add decay_product].
  unfold decay_factor.
  destruct (Nat.leb_spec 2 (S k)) as [H2|H2];
    destruct (Nat.ltb_spec (S k) 8) as [H8|H8]; cbn [andb].
  - replace (Nat.min (S k - 1) 6) with (S (Nat.min (k - 1) 6)) by lia.
    cbn [pow]. ring.
  - replace (Nat.min (S k - 1) 6) with (Nat.min (k - 1) 6) by lia. ring.
  - replace (Nat.min (S k - 1) 6) with (Nat.min (k - 1) 6) by lia. ring.
  - lia.
Qed.

(** A call that returns has enumerated, initialised, run the cycle loop from
    the regressors created before it, and evaluated. *)
Lemma call_inv {lib : External} X_train y_train X_test y_test p res :
  RS_HDMR_GPR X_train y_train X_test y_test p = Ok res ->
  exists combos F0 st,
    all_combos X_train p = Ok combos /\
    initialize X_train y_train p combos = Ok F0 /\
    train_loop X_train y_train p combos (py_range (number_cycles p))
      (mkState (alpha p)
         (fst (new_regressors (make_config p (alpha p)) (length combos) 0))
         F0 [] (0 + length combos)) = Ok st /\
    res_GPR res = st_GPR st /\ res_rmse_train res = st_rmse_train st.
Proof.
  unfold RS_HDMR_GPR. intro H. bind_inv H. destruct a as [combos st].
  match goal with Ht : train_block _ _ _ = Ok _ |- _ =>
    unfold train_block in Ht; bind_inv Ht; cbn [new_regressors] in Ht;
    bind_inv Ht; injection Ht as <- <- end.
  unfold evaluate in H. bind_inv H.
  match goal with x : (matrix * matrix)%type |- _ => destruct x end.
  injection H as <-.
  eexists; eexists; eexists. repeat split; eauto.
Qed.

Lemma repeat_map_Forall {A B} (f : A -> B) (l : list A) (b : B) n :
  map f l = repeat b n -> Forall (fun x => f x = b) l /\ length l = n.
Proof.
  revert n. induction l as [|x l IH]; intros [|n] H; cbn in H;
    try discriminate.
  - split; [constructor | reflexivity].
  - injection H as Hx Hl. destruct (IH n Hl) as [Hall Hlen].
    split; [now constructor | cbn; now rewrite Hlen].
Qed.

(** C1, as the code has it.  With [use_decay_alpha = 'yes'], once the cycles
    [0..k] have run, the regressors fitted in cycle [k] all carry the running
    noise level, which is the initial one for [k] in {0, 1}, the initial one
    times [0.1^(k-1)] for [k] in [2..7] (one factor 0.1 for each of the
    cycles [2..k]), and the initial one times [0.1^6] for every [k >= 8]. *)
Theorem noise_level_decays_once_per_cycle_2_to_7
    {lib : External} (X_train : DataFrame) (y_train : vec) (p : params)
    (combos : list (list label)) (k : nat) (st0 st : fit_state) :
  use_decay_alpha p = "yes"%string ->
  train_loop X_train y_train p combos (seq 0 (S k)) st0 = Ok st ->
  length (st_GPR st) = length combos /\
  Forall (fun g => cfg_alpha (config g) = st_alpha st) (st_GPR st) /\
  ((k < 2)%nat -> st_alpha st = st_alpha st0) /\
  ((2 <= k < 8)%nat -> st_alpha st = st_alpha st0 * (1 / 10) ^ (k - 1)) /\
  ((8 <= k)%nat -> st_alpha st = st_alpha st0 * (1 / 10) ^ 6).
Proof.
  intros Hyes Hrun.
  apply train_loop_yes in Hrun; [|assumption|discriminate].
  destruct Hrun as (Ha & Hcfg & _).
  rewrite decay_product_first_cycles in Ha.
  apply repeat_map_Forall in Hcfg. destruct Hcfg as [Hall Hlen].
  split; [assumption|]. split.
  - eapply Forall_impl; [|exact Hall]. cbn. intros g ->. reflexivity.
  - split; [|split]; intro Hk; rewrite Ha.
    + replace (Nat.min (k - 1) 6) with 0%nat by lia. cbn [pow]. ring.
    + replace (Nat.min (k - 1) 6) with (k - 1)%nat by lia. reflexivity.
    + replace (Nat.min (k - 1) 6) with 6%nat by lia. reflexivity.
Qed.

Lemma noise_level_decays_once_per_cycle_2_to_7_witness :
  exists st,
    train_loop (lib := constant_stub) toy_X toy_y
      (call_with 2 1 "yes" 1 4 "naive" "no") toy_combos (seq 0 4)
      (toy_state0 (call_with 2 1 "yes" 1 4 "naive" "no")) = Ok st /\
    st_alpha st = 1 * (1 / 10) ^ 2.
Proof.
  destruct (train_loop (lib := constant_stub) toy_X toy_y
              (call_with 2 1 "yes" 1 4 "naive" "no") toy_combos (seq 0 4)
              (toy_state0 (call_with 2 1 "yes" 1 4 "naive" "no")))
    as [st|e] eqn:E.
  - exists st. split; [reflexivity|].
    destruct (noise_level_decays_once_per_cycle_2_to_7 (lib := constant_stub)
                toy_X toy_y (call_with 2 1 "yes" 1 4 "naive" "no")
                toy_combos 3 _ st eq_refl E) as (_ & _ & _ & H & _).
    apply H. lia.
  - exfalso. apply (f_equal is_ok) in E. vm_compute in E. discriminate E.
Defined.

(** The claim of C1 fails at cycle index 3: in a call with [alpha = 1] and
    four cycles, the regressor fitted in the last cycle (index 3) carries the
    noise level 0.01, not 0.1. *)
Lemma noise_level_at_cycle_three_is_not_one_tenth :
  exists res g,
    RS_HDMR_GPR (lib := constant_stub) toy_X toy_y toy_X toy_y
      (call_with 2 1 "yes" 1 4 "naive" "no") = Ok res /\
    In g (res_GPR res) /\
    cfg_alpha (config g) = 1 / 100 /\
    cfg_alpha (config g) <> 1 * (1 / 10).
Proof.
  set (p := call_with 2 1 "yes" 1 4 "naive" "no").
  destruct (RS_HDMR_GPR (lib := constant_stub) toy_X toy_y toy_X toy_y p)
    as [res|e] eqn:E.
  - destruct (call_inv _ _ _ _ _ _ E)
      as (combos & F0 & st & Hc & _ & Hrun & HG & _).
    injection Hc as <-.
    change (py_range (number_cycles p)) with (seq 0 4) in Hrun.
    apply train_loop_yes in Hrun; [|reflexivity|discriminate].
    destruct Hrun as (Ha & Hcfg & _).
    change (seq 0 4) with (seq 0 (S 3)) in Ha.
    rewrite decay_product_first_cycles in Ha.
    cbn [st_alpha Nat.min Nat.sub pow] in Ha.
    rewrite <- HG in Hcfg. cbn [length combinations map app repeat] in Hcfg.
    exists res.
    destruct (res_GPR res) as [|g rest]; [discriminate|].
    injection Hcfg as Hg _. exists g.
    split; [reflexivity|]. split; [now left|].
    rewrite Hg. cbn [make_config cfg_alpha]. rewrite Ha.
    change (alpha p) with 1. split; lra.
  - exfalso. apply (f_equal is_ok) in E. vm_compute in E. discriminate E.
Qed.

(** C10.  With [use_decay_alpha = 'yes'] the schedule block of every cycle
    [k] (0, 1 and [k >= 8] included) rebinds [GPR] to [M] objects allocated
    in that cycle, none of them fitted; the cycle does not depend on the
    regressors it inherits, and the regressors it leaves are those new
    objects.  With any other value of [use_decay_alpha], after any number of
    cycles the list [GPR] holds the same objects, with the same
    configuration, as before the loop, no object has been allocated, and
    [alpha] has its initial value. *)
Theorem regressors_replaced_each_cycle_or_reused
    {lib : External} (X_train : DataFrame) (y_train : vec) (p : params)
    (combos : list (list label)) :
  (use_decay_alpha p = "yes"%string ->
     (forall k a GPR next,
        exists G,
          decay_block p (length combos) k a GPR next =
            (a * decay_factor k, G, (next + length combos)%nat) /\
          length G = length combos /\
          map rid G = seq next (length combos) /\
          Forall (fun g => fitted_on g = None) G) /\
     (forall k a GPR GPR' F h next,
        cycle X_train y_train p combos k (mkState a GPR F h next) =
        cycle X_train y_train p combos k (mkState a GPR' F h next)) /\
     (forall k st st',
        cycle X_train y_train p combos k st = Ok st' ->
        map rid (st_GPR st') = seq (st_next st) (length combos) /\
        st_next st' = (st_next st + length combos)%nat)) /\
  (use_decay_alpha p <> "yes"%string ->
     forall ks st st',
       train_loop X_train y_train p combos ks st = Ok st' ->
       st_alpha st' = st_alpha st /\
       st_next st' = st_next st /\
       map rid (st_GPR st') = map rid (st_GPR st) /\
       map config (st_GPR st') = map config (st_GPR st)).
Proof.
  split.
  - intro Hyes. split; [|split].
    + intros k a GPR next. eexists. split.
      * apply decay_block_yes. assumption.
      * destruct (new_regressors_spec
                    (make_config p (a * decay_factor k)) (length combos) next)
          as (_ & Hl & Hr & _ & Hf). auto.
    + intros k a GPR GPR' F h next. unfold cycle.
      cbn [st_alpha st_GPR st_next st_F st_rmse_train].
      now rewrite !decay_block_yes by assumption.
    + intros k st st' H. apply cycle_yes in H; [|assumption].
      destruct H as (_ & Hn & Hid & _). auto.
  - intros Hno ks st st' H. eapply train_loop_no; eauto.
Qed.

Lemma regressors_replaced_each_cycle_or_reused_witness :
  (exists st',
     cycle (lib := constant_stub) toy_X toy_y
       (call_with 2 1 "yes" 1 4 "naive" "no") toy_combos 0
       (toy_state0 (call_with 2 1 "yes" 1 4 "naive" "no")) = Ok st' /\
     map rid (st_GPR st') = [1%nat]) /\
  (exists st',
     train_loop (lib := constant_stub) toy_X toy_y
       (call_with 2 1 "no" 1 4 "naive" "no") toy_combos (seq 0 4)
       (toy_state0 (call_with 2 1 "no" 1 4 "naive" "no")) = Ok st' /\
     map rid (st_GPR st') = [0%nat] /\ st_alpha st' = 1).
Proof.
  split.
  - destruct (cycle (lib := constant_stub) toy_X toy_y
                (call_with 2 1 "yes" 1 4 "naive" "no") toy_combos 0
                (toy_state0 (call_with 2 1 "yes" 1 4 "naive" "no")))
      as [st'|e] eqn:E.
    + exists st'. split; [reflexivity|].
      destruct (regressors_replaced_each_cycle_or_reused (lib := constant_stub)
                  toy_X toy_y (call_with 2 1 "yes" 1 4 "naive" "no")
                  toy_combos) as [Hyes _].
      destruct (Hyes eq_refl) as (_ & _ & H).
      destruct (H _ _ _ E) as [Hid _]. exact Hid.
    + exfalso. apply (f_equal is_ok) in E. vm_compute in E. discriminate E.
  - destruct (train_loop (lib := constant_stub) toy_X toy_y
                (call_with 2 1 "no" 1 4 "naive" "no") toy_combos (seq 0 4)
                (toy_state0 (call_with 2 1 "no" 1 4 "naive" "no")))
      as [st'|e] eqn:E.
    + exists st'. split; [reflexivity|].
      destruct (regressors_replaced_each_cycle_or_reused (lib := constant_stub)
                  toy_X toy_y (call_with 2 1 "no" 1 4 "naive" "no")
                  toy_combos) as [_ Hno].
      assert (Hne : use_decay_alpha (call_with 2 1 "no" 1 4 "naive" "no")
                    <> "yes"%string) by (cbn; discriminate).
      destruct (Hno Hne _ _ _ E) as (Ha & _ & Hid & _).
      split; [exact Hid | exact Ha].
    + exfalso. apply (f_equal is_ok) in E. vm_compute in E. discriminate E.
Defined.

(** ** Column updates *)

Lemma col_set_col_same F i v : (i < ncols F)%nat -> col (set_col F i v) i = v.
Proof. intro H. unfold col, set_col. cbn [cols]. now apply list_set_nth_same. Qed.

Lemma col_set_col_other F i c v : i <> c -> col (set_col F i v) c = col F c.
Proof. intro H. unfold col, set_col. cbn [cols]. now apply list_set_nth_other. Qed.

Lemma ncols_set_col F i v : ncols (set_col F i v) = ncols F.
Proof. unfold ncols, set_col. cbn [cols]. apply list_set_length. Qed.

Lemma Forall_list_set {A} (P : A -> Prop) (l : list A) : forall i x,
  Forall P l -> P x -> Forall P (list_set l i x).
Proof.
  induction l as [|h l IH]; intros [|i] x Hl Hx; cbn [list_set]; auto;
    inversion Hl; subst; constructor; auto.
Qed.

Lemma wf_set_col F i v :
  wf_matrix F -> length v = nrows F -> wf_matrix (set_col F i v).
Proof.
  intros Hwf Hv. unfold wf_matrix, set_col. cbn [cols nrows].
  now apply Forall_list_set.
Qed.

(** Writing column [i] changes the full row sum by the change of the entry
    of that column. *)
Lemma rowsum_set_col F i v r :
  (i < ncols F)%nat ->
  rowsum (set_col F i v) r = rowsum F r - entry F r i + nth r v 0.
Proof.
  intro Hi.
  assert (Hin : In i (seq 0 (ncols F))) by (apply in_seq; lia).
  pose proof (big_sum_filter_out (entry F r) i _ (seq_NoDup (ncols F) 0) Hin)
    as H1.
  pose proof (big_sum_filter_out (entry (set_col F i v) r) i _
                (seq_NoDup (ncols F) 0) Hin) as H2.
  assert (E : big_sum (entry (set_col F i v) r)
                (filter (fun c => negb (Nat.eqb c i)) (seq 0 (ncols F))) =
              big_sum (entry F r)
                (filter (fun c => negb (Nat.eqb c i)) (seq 0 (ncols F)))).
  { apply big_sum_ext_in. intros c Hc. apply filter_In in Hc.
    destruct Hc as [_ Hc]. destruct (Nat.eqb_spec c i); [discriminate|].
    unfold entry. rewrite col_set_col_other; auto. }
  assert (Ee : entry (set_col F i v) r i = nth r v 0)
    by (unfold entry; now rewrite col_set_col_same).
  unfold rowsum. rewrite ncols_set_col. lra.
Qed.

Lemma rowsum_except_set_col_other F i i' v r :
  (i < ncols F)%nat -> (i' < ncols F)%nat -> i <> i' ->
  rowsum_except (set_col F i v) (Z.of_nat i') r =
  rowsum_except F (Z.of_nat i') r - entry F r i + nth r v 0.
Proof.
  intros Hi Hi' Hne.
  rewrite !rowsum_except_in_range by (rewrite ?ncols_set_col; lia).
  rewrite rowsum_set_col by assumption. rewrite Nat2Z.id.
  assert (Ee : entry (set_col F i v) r i' = entry F r i')
    by (unfold entry; now rewrite col_set_col_other).
  lra.
Qed.

Lemma set_col_twice F i v w : set_col (set_col F i v) i w = set_col F i w.
Proof.
  unfold set_col. cbn [nrows cols]. f_equal.
  generalize (cols F) as l. intro l. revert i.
  induction l as [|h l IH]; intros [|i]; cbn [list_set]; auto.
  now rewrite IH.
Qed.

Lemma vdiv_nth v c r : nth r (vdiv v c) 0 = nth r v 0 / c.
Proof.
  unfold vdiv. revert r. induction v as [|x v IH]; intros [|r]; simpl; auto;
    unfold Rdiv; ring.
Qed.

Lemma residual_length y F i :
  wf_matrix F -> length y = nrows F -> length (residual y F i) = nrows F.
Proof.
  intros Hwf Hy. unfold residual, vsub.
  apply vmap2_length_eq; auto using sumcol_length.
Qed.

Lemma blend_length p m ramp vect n :
  length m = n -> length vect = n -> length (blend p m ramp vect) = n.
Proof.
  intros Hm Hv. unfold blend. destruct (String.eqb (mixe p) "yes").
  - unfold vdiv, vadd. rewrite length_map.
    apply vmap2_length_eq; auto. now rewrite vscale_length.
  - now rewrite vscale_length.
Qed.

(** C6.  In the step of cycle [k] for combination [i], let [vect] be the
    residual computed from the matrix as the step finds it, [xx] the training
    inputs restricted to the features of combination [i], and [m] the
    prediction on [xx] of regressor [i] once refitted on [(xx, vect)].  When
    the library calls succeed and the ramp [ramp] of cycle [k] is defined,
    the step succeeds, writes [(m * ramp + vect) / 2] into column [i] if
    [mixe = 'yes'] and [m * ramp] otherwise, and leaves the other columns as
    they were; the step of the next combination in the cycle starts from the
    updated matrix, so that the residual of any other combination [i'] reads
    the new entries of column [i] in place of the old ones. *)
Theorem component_update_is_blended_and_sequential
    {lib : External} (X_train : DataFrame) (y_train : vec) (p : params)
    (combos : list (list label)) (k i : nat) (GPR : list regressor)
    (F : matrix) (g : regressor) (xx : list vec) (m sd : vec) (ramp : R) :
  wf_matrix F -> length y_train = nrows F -> (i < ncols F)%nat ->
  df_select X_train (nth i combos []) = Ok xx ->
  py_index GPR i = Ok g ->
  gpr_fit (config g) xx (residual y_train F i) = Ok tt ->
  gpr_predict (config g) (Some (xx, residual y_train F i)) xx = Ok (m, sd) ->
  length m = nrows F ->
  scale_ramp (number_cycles p) k = Ok ramp ->
  exists GPR' F',
    update_component X_train y_train p combos k i (GPR, F) = Ok (GPR', F') /\
    GPR' = list_set GPR i
             (mkRegressor (rid g) (config g)
                (Some (xx, residual y_train F i))) /\
    F' = set_col F i (blend p m ramp (residual y_train F i)) /\
    (forall r, (r < nrows F)%nat ->
       entry F' r i =
       if String.eqb (mixe p) "yes"
       then (nth r m 0 * ramp + nth r (residual y_train F i) 0) / 2
       else nth r m 0 * ramp) /\
    (forall c, c <> i -> col F' c = col F c) /\
    wf_matrix F' /\
    (forall rest,
       inner_loop X_train y_train p combos k (i :: rest) (GPR, F) =
       inner_loop X_train y_train p combos k rest (GPR', F')) /\
    (forall i' r, i' <> i -> (i' < ncols F)%nat -> (r < nrows F)%nat ->
       nth r (residual y_train F' i') 0 =
       nth r y_train 0 -
       (rowsum_except F (Z.of_nat i') r - entry F r i + entry F' r i)).
Proof.
  intros Hwf Hy Hi Hsel Hidx Hfit Hpred Hm Hramp.
  set (vect := residual y_train F i) in *.
  assert (Hvect : length vect = nrows F) by now apply residual_length.
  assert (Hstep :
    update_component X_train y_train p combos k i (GPR, F) =
    Ok (list_set GPR i (mkRegressor (rid g) (config g) (Some (xx, vect))),
        set_col F i (blend p m ramp vect))).
  { unfold update_component. fold vect. rewrite Hsel. cbn [bind].
    rewrite Hidx. cbn [bind]. unfold fit.
    rewrite col_set_col_same by assumption. rewrite Hfit. cbn [bind].
    unfold predict, predict_std. cbn [config fitted_on]. rewrite Hpred.
    cbn [bind fst]. rewrite Hramp. cbn [bind].
    now rewrite set_col_twice. }
  assert (Hentry : forall r, (r < nrows F)%nat ->
    entry (set_col F i (blend p m ramp vect)) r i =
    if String.eqb (mixe p) "yes"
    then (nth r m 0 * ramp + nth r vect 0) / 2
    else nth r m 0 * ramp).
  { intros r Hr. unfold entry. rewrite col_set_col_same by assumption.
    unfold blend. destruct (String.eqb (mixe p) "yes").
    - rewrite vdiv_nth. unfold vadd.
      rewrite vmap2_nth by (rewrite ?vscale_length; lia).
      now rewrite vscale_nth.
    - apply vscale_nth. }
  assert (Hwf' : wf_matrix (set_col F i (blend p m ramp vect))).
  { apply wf_set_col; auto. now apply blend_length. }
  eexists; eexists. split; [exact Hstep|].
  split; [reflexivity|]. split; [reflexivity|].
  split; [exact Hentry|]. split.
  { intros c Hc. apply col_set_col_other. auto. }
  split; [exact Hwf'|]. split.
  { intro rest. cbn [inner_loop]. rewrite Hstep. reflexivity. }
  intros i' r Hne Hi' Hr.
  rewrite residual_nth; auto.
  rewrite rowsum_except_set_col_other by auto.
  unfold entry at 3. rewrite col_set_col_same by assumption. reflexivity.
Qed.

Lemma component_update_is_blended_and_sequential_witness :
  exists GPR' F',
    update_component (lib := constant_stub) toy_X toy_y
      (call_with 1 1 "no" 1 4 "naive" "yes") toy_combos1 0 0
      (toy_GPR1 (call_with 1 1 "no" 1 4 "naive" "yes"), toy_F1) =
    Ok (GPR', F') /\
    F' = set_col toy_F1 0
           (blend (call_with 1 1 "no" 1 4 "naive" "yes") (ones 2)
              (Rmin 1 (IZR 1 / IZR 1 + 1 / 2)) (residual toy_y toy_F1 0)).
Proof.
  destruct (component_update_is_blended_and_sequential (lib := constant_stub)
              toy_X toy_y (call_with 1 1 "no" 1 4 "naive" "yes") toy_combos1
              0 0 (toy_GPR1 (call_with 1 1 "no" 1 4 "naive" "yes")) toy_F1
              (mkRegressor 0 (make_config (call_with 1 1 "no" 1 4 "naive" "yes") 1)
                 None)
              [[0; 1]] (ones 2) (ones 2) (Rmin 1 (IZR 1 / IZR 1 + 1 / 2)))
    as (GPR' & F' & Hstep & _ & HF & _).
  - repeat constructor.
  - reflexivity.
  - cbn. lia.
  - reflexivity.
  - reflexivity.
  - reflexivity.
  - reflexivity.
  - reflexivity.
  - reflexivity.
  - exists GPR', F'. split; assumption.
Defined.

(** ** Evaluation *)

Section Evaluation.

Context {lib : External}.
Variables (X_test : DataFrame) (y_test : vec) (p : params).
Variable combos : list (list label).
Variable GPR : list regressor.

Lemma test_loop_spec idx : forall Ft Eb Ft' Eb',
  NoDup idx ->
  (forall i, In i idx -> (i < ncols Ft)%nat /\ (i < ncols Eb)%nat) ->
  test_loop X_test combos GPR idx (Ft, Eb) = Ok (Ft', Eb') ->
  ncols Ft' = ncols Ft /\ ncols Eb' = ncols Eb /\
  nrows Ft' = nrows Ft /\ nrows Eb' = nrows Eb /\
  (forall i, In i idx -> evaluated X_test combos GPR Ft' Eb' i) /\
  (forall i, ~ In i idx -> col Ft' i = col Ft i /\ col Eb' i = col Eb i).
Proof.
  induction idx as [|i idx IH]; intros Ft Eb Ft' Eb' Hnd Hin H.
  - cbn in H. injection H as <- <-. repeat split; auto. intros i [].
  - cbn [test_loop] in H. bind_inv H. destruct a1 as [m sd].
    inversion Hnd as [|? ? Hni Hnd']; subst.
    destruct (Hin i (or_introl eq_refl)) as [HiF HiE].
    rewrite col_set_col_same, set_col_twice in H by assumption.
    apply IH in H; auto.
    + destruct H as (Hc1 & Hc2 & Hr1 & Hr2 & Hev & Hother).
      rewrite ncols_set_col in Hc1, Hc2. cbn [set_col nrows] in Hr1, Hr2.
      split; [assumption|]. split; [assumption|].
      split; [assumption|]. split; [assumption|]. split.
      * intros j [<-|Hj]; [|now apply Hev].
        destruct (Hother i Hni) as [HF HE].
        rewrite col_set_col_same in HF, HE by assumption.
        unfold evaluated. eauto 10.
      * intros j Hj.
        assert (Hne : i <> j) by (intros ->; apply Hj; now left).
        destruct (Hother j) as [HF HE]; [intro; apply Hj; now right|].
        rewrite HF, HE. split; now apply col_set_col_other.
    + intros j Hj. rewrite !ncols_set_col. apply Hin. now right.
Qed.

Lemma zero_matrix_ncols n m : ncols (zero_matrix n m) = m.
Proof. unfold ncols, zero_matrix. cbn [cols]. apply repeat_length. Qed.

Lemma vsqrt_vscale_nonneg v s :
  0 <= s -> Forall (fun e => 0 <= e) (vscale (vsqrt v) s).
Proof.
  intro Hs. unfold vscale, vsqrt. rewrite map_map.
  apply Forall_map, Forall_forall. intros x _.
  apply Rmult_le_pos; [apply sqrt_pos | assumption].
Qed.

Lemma vsqrt_nth v r : (r < length v)%nat -> nth r (vsqrt v) 0 = sqrt (nth r v 0).
Proof. apply map_nth_lt. Qed.

End Evaluation.

(** C7, as the code has it.  An evaluation that returns has stored, for every
    combination [i], the predicted mean in column [i] of the test component
    matrix and the square of the predicted standard deviation in column [i]
    of the error-bar matrix.  With at most 10000 combinations the scaled
    prediction of a test sample is the sum of its row of the test component
    matrix over all the columns, times [scale_factor]; with at most 5000
    combinations its combined uncertainty is the square root of the sum of
    its row of variances, times [scale_factor].  The combined uncertainty is
    non-negative whenever [scale_factor] is. *)
Theorem evaluation_sums_means_and_variances
    {lib : External} (X_test : DataFrame) (y_test : vec) (p : params)
    (combos : list (list label)) (GPR : list regressor) (h : list R)
    (res : fit_result) :
  evaluate X_test y_test p combos GPR h = Ok res ->
  exists Ftest errorbars : matrix,
    test_loop X_test combos GPR (seq 0 (length combos))
      (zero_matrix (df_nrows X_test) (length combos),
       zero_matrix (df_nrows X_test) (length combos)) = Ok (Ftest, errorbars) /\
    (forall i, (i < length combos)%nat ->
       evaluated X_test combos GPR Ftest errorbars i) /\
    (wf_matrix Ftest -> (Z.of_nat (length combos) <= rowsum_sentinel)%Z ->
     forall r, (r < df_nrows X_test)%nat ->
       nth r (res_y_pred_scaled res) 0 = rowsum Ftest r * scale_factor p) /\
    (wf_matrix errorbars -> (Z.of_nat (length combos) <= errorbar_sentinel)%Z ->
     forall r, (r < df_nrows X_test)%nat ->
       nth r (res_error_bars res) 0 =
       sqrt (rowsum errorbars r) * scale_factor p) /\
    (0 <= scale_factor p -> Forall (fun e => 0 <= e) (res_error_bars res)).
Proof.
  intro H. unfold evaluate in H. bind_inv H. destruct a as [Ftest errorbars].
  injection H as <-. cbn [res_y_pred_scaled res_error_bars].
  exists Ftest, errorbars. split; [reflexivity|].
  match goal with Ht : test_loop _ _ _ _ _ = Ok _ |- _ =>
    apply test_loop_spec in Ht;
      [destruct Ht as (Hc1 & Hc2 & Hr1 & Hr2 & Hev & _)
      | apply seq_NoDup
      | intros i Hi; apply in_seq in Hi; rewrite !zero_matrix_ncols; lia] end.
  rewrite zero_matrix_ncols in Hc1, Hc2. cbn [zero_matrix nrows] in Hr1, Hr2.
  split; [|split; [|split]].
  - intros i Hi. apply Hev. apply in_seq. lia.
  - intros Hwf HM r Hr. rewrite vscale_nth.
    rewrite sumcol_nth by (auto; lia).
    rewrite rowsum_except_out_of_range; [reflexivity|].
    right. rewrite Hc1. exact HM.
  - intros Hwf HM r Hr. rewrite vscale_nth.
    rewrite vsqrt_nth by (rewrite sumcol_length; auto; lia).
    rewrite sumcol_nth by (auto; lia).
    rewrite rowsum_except_out_of_range; [reflexivity|].
    right. rewrite Hc2. exact HM.
  - intro Hs. now apply vsqrt_vscale_nonneg.
Qed.

Lemma evaluation_sums_means_and_variances_witness :
  exists res,
    evaluate (lib := constant_stub) toy_X toy_y
      (call_with 2 1 "no" 1 4 "naive" "no") toy_combos
      (toy_GPR1 (call_with 2 1 "no" 1 4 "naive" "no")) [] = Ok res /\
    Forall (fun e => 0 <= e) (res_error_bars res).
Proof.
  destruct (evaluate (lib := constant_stub) toy_X toy_y
              (call_with 2 1 "no" 1 4 "naive" "no") toy_combos
              (toy_GPR1 (call_with 2 1 "no" 1 4 "naive" "no")) [])
    as [res|e] eqn:E.
  - exists res. split; [reflexivity|].
    destruct (evaluation_sums_means_and_variances (lib := constant_stub)
                _ _ _ _ _ _ _ E) as (Ft & Eb & _ & _ & _ & _ & H).
    apply H. cbn. lra.
  - exfalso. apply (f_equal is_ok) in E. vm_compute in E. discriminate E.
Defined.

(** ** Evaluation on a wide data set *)

Lemma wide_lookup n : forall a i,
  (a <= i < a + n)%nat ->
  df_lookup (map (fun i => (i, [1])) (seq a n)) i = Ok [1].
Proof.
  induction n as [|n IH]; intros a i H; [lia|].
  cbn [seq map df_lookup].
  destruct (Nat.eqb_spec i a) as [->|Hne]; [reflexivity|].
  apply IH. lia.
Qed.

Lemma wide_combos_nth n i :
  (i < n)%nat -> nth i (wide_combos n) [] = [i].
Proof.
  intro H. unfold wide_combos.
  rewrite (nth_indep _ [] [0%nat]) by (now rewrite length_map, length_seq).
  rewrite (map_nth (fun i => [i])), seq_nth by assumption. reflexivity.
Qed.

Lemma wide_select n i :
  (i < n)%nat -> df_select (wide_X n) (nth i (wide_combos n) []) = Ok [[1]].
Proof.
  intro H. rewrite wide_combos_nth by assumption.
  cbn [df_select]. unfold df_get, wide_X. cbn [df_columns].
  rewrite wide_lookup by lia. reflexivity.
Qed.

(** With the toy library the test loop succeeds as soon as every
    combination selects existing columns and has its regressor. *)
Lemma test_loop_constant_stub X combos GPR idx : forall Ft Eb,
  (forall i, In i idx ->
     is_ok (df_select X (nth i combos [])) = true /\ (i < length GPR)%nat) ->
  is_ok (test_loop (lib := constant_stub) X combos GPR idx (Ft, Eb)) = true.
Proof.
  induction idx as [|i idx IH]; intros Ft Eb H; [reflexivity|].
  destruct (H i (or_introl eq_refl)) as [Hsel Hi].
  cbn [test_loop].
  destruct (df_select X (nth i combos [])) as [xt|] eqn:E; [|discriminate].
  cbn [bind]. unfold py_index.
  destruct (nth_error GPR i) as [g|] eqn:Eg;
    [|apply nth_error_None in Eg; lia].
  cbn [bind predict_std gpr_predict constant_stub].
  apply IH. intros j Hj. apply H. now right.
Qed.

Lemma evaluate_inv {lib : External} X_test y_test p combos GPR h res :
  evaluate X_test y_test p combos GPR h = Ok res ->
  exists Ftest errorbars,
    test_loop X_test combos GPR (seq 0 (length combos))
      (zero_matrix (df_nrows X_test) (length combos),
       zero_matrix (df_nrows X_test) (length combos)) = Ok (Ftest, errorbars) /\
    res_y_pred_scaled res =
      vscale (sumcol Ftest rowsum_sentinel) (scale_factor p) /\
    res_error_bars res =
      vscale (vsqrt (sumcol errorbars errorbar_sentinel)) (scale_factor p).
Proof.
  intro H. unfold evaluate in H. bind_inv H. destruct a as [Ftest errorbars].
  injection H as <-. exists Ftest, errorbars. repeat split.
Qed.

Lemma wide_combos_length n : length (wide_combos n) = n.
Proof. unfold wide_combos. now rewrite length_map, length_seq. Qed.

(** The error-bar matrix of the toy library on the wide data set: one row,
    every variance 1. *)
Lemma wide_errorbars n GPR Ft Eb :
  test_loop (lib := constant_stub) (wide_X n) (wide_combos n) GPR (seq 0 n)
    (zero_matrix 1 n, zero_matrix 1 n) = Ok (Ft, Eb) ->
  wf_matrix Eb /\ nrows Eb = 1%nat /\ ncols Eb = n /\
  (forall i, (i < n)%nat -> entry Eb 0 i = 1).
Proof.
  intro H. apply test_loop_spec in H;
    [| apply seq_NoDup
     | intros i Hi; apply in_seq in Hi; rewrite !zero_matrix_ncols; lia].
  destruct H as (_ & Hc & _ & Hr & Hev & _).
  rewrite zero_matrix_ncols in Hc. cbn [zero_matrix nrows] in Hr.
  assert (Hcol : forall i, (i < n)%nat -> col Eb i = [1 * 1]).
  { intros i Hi. destruct (Hev i) as (xt & g & m & sd & Hsel & _ & Hp & _ & HE).
    { apply in_seq. lia. }
    rewrite wide_select in Hsel by assumption. injection Hsel as <-.
    cbn in Hp. injection Hp as _ <-. exact HE. }
  split; [|split; [|split]]; auto.
  - unfold wf_matrix. apply Forall_forall. intros c Hin.
    destruct (In_nth _ _ [] Hin) as (i & Hi & <-).
    change (nth i (cols Eb) []) with (col Eb i).
    assert (Hi' : (i < n)%nat) by (rewrite <- Hc; exact Hi).
    rewrite (Hcol i Hi'). now rewrite Hr.
  - intros i Hi. unfold entry. rewrite Hcol by assumption. cbn. lra.
Qed.

Lemma evaluate_constant_stub_ok X y p combos GPR h :
  (forall i, (i < length combos)%nat ->
     is_ok (df_select X (nth i combos [])) = true) ->
  length GPR = length combos ->
  is_ok (evaluate (lib := constant_stub) X y p combos GPR h) = true.
Proof.
  intros Hsel HG. unfold evaluate.
  pose proof (test_loop_constant_stub X combos GPR (seq 0 (length combos))
                (zero_matrix (df_nrows X) (length combos))
                (zero_matrix (df_nrows X) (length combos))) as Hok.
  destruct (test_loop X combos GPR (seq 0 (length combos)) _) as [[Ft Eb]|e].
  - reflexivity.
  - apply Hok. intros i Hi. apply in_seq in Hi. split; [apply Hsel|]; lia.
Qed.

Lemma wide_evaluation_result n GPR p :
  (0 < n)%nat -> length GPR = n ->
  exists res Ftest errorbars,
    evaluate (lib := constant_stub) (wide_X n) [1] p (wide_combos n) GPR [] =
      Ok res /\
    test_loop (lib := constant_stub) (wide_X n) (wide_combos n) GPR
      (seq 0 (length (wide_combos n)))
      (zero_matrix (df_nrows (wide_X n)) (length (wide_combos n)),
       zero_matrix (df_nrows (wide_X n)) (length (wide_combos n))) =
      Ok (Ftest, errorbars) /\
    wf_matrix errorbars /\ nrows errorbars = 1%nat /\ ncols errorbars = n /\
    (forall i, (i < n)%nat -> entry errorbars 0 i = 1) /\
    rowsum errorbars 0 = INR n /\
    nth 0 (res_error_bars res) 0 =
      sqrt (rowsum_except errorbars errorbar_sentinel 0) * scale_factor p.
Proof.
  intros Hn HG.
  destruct (evaluate (lib := constant_stub) (wide_X n) [1] p (wide_combos n)
              GPR []) as [res|e] eqn:E.
  - pose proof (evaluate_inv _ _ _ _ _ _ _ E) as (Ft & Eb & Hloop & _ & Hres).
    exists res, Ft, Eb. split; [reflexivity|]. split; [exact Hloop|].
    rewrite wide_combos_length in Hloop. cbn [wide_X df_nrows] in Hloop.
    apply wide_errorbars in Hloop. destruct Hloop as (Hwf & Hr & Hc & Hent).
    split; [assumption|]. split; [assumption|]. split; [assumption|].
    split; [assumption|]. split.
    + unfold rowsum. rewrite Hc.
      rewrite (big_sum_ext_in _ (fun _ => 1)).
      * rewrite big_sum_const, length_seq. lra.
      * intros i Hi. apply in_seq in Hi. apply Hent. lia.
    + rewrite Hres, vscale_nth.
      rewrite vsqrt_nth by (rewrite sumcol_length; auto; lia).
      rewrite sumcol_nth by (auto; lia). reflexivity.
  - exfalso. apply (f_equal is_ok) in E.
    rewrite evaluate_constant_stub_ok in E; [discriminate| |].
    + intros i Hi. rewrite wide_combos_length in Hi.
      now rewrite wide_select.
    + now rewrite wide_combos_length.
Qed.

(** The claim of C7 fails for a negative scale factor: in a call with
    [scale_factor = -1] the combined uncertainty returned for the first test
    sample is negative.  It also fails with more than 5000 combinations: on
    5001 one-feature combinations of a one-sample test set, each with
    variance 1, the row of variances sums to 5001 while the returned
    uncertainty is [sqrt 5000]. *)
Lemma combined_uncertainty_negative_or_short_of_a_column :
  (exists res,
     RS_HDMR_GPR (lib := constant_stub) toy_X toy_y toy_X toy_y
       (call_with 2 1 "no" (-1) 4 "naive" "no") = Ok res /\
     nth 0 (res_error_bars res) 0 < 0) /\
  (exists res Ftest errorbars,
     evaluate (lib := constant_stub) (wide_X (Z.to_nat 5001)) [1]
       (call_with 1 1 "no" 1 3 "naive" "no") (wide_combos (Z.to_nat 5001))
       (fst (new_regressors
               (make_config (call_with 1 1 "no" 1 3 "naive" "no") 1)
               (Z.to_nat 5001) 0)) [] = Ok res /\
     test_loop (lib := constant_stub) (wide_X (Z.to_nat 5001))
       (wide_combos (Z.to_nat 5001))
       (fst (new_regressors
               (make_config (call_with 1 1 "no" 1 3 "naive" "no") 1)
               (Z.to_nat 5001) 0))
       (seq 0 (length (wide_combos (Z.to_nat 5001))))
       (zero_matrix (df_nrows (wide_X (Z.to_nat 5001)))
          (length (wide_combos (Z.to_nat 5001))),
        zero_matrix (df_nrows (wide_X (Z.to_nat 5001)))
          (length (wide_combos (Z.to_nat 5001)))) = Ok (Ftest, errorbars) /\
     rowsum errorbars 0 = 5001 /\
     nth 0 (res_error_bars res) 0 = sqrt 5000 * 1 /\
     nth 0 (res_error_bars res) 0 <>
       sqrt (rowsum errorbars 0) *
       scale_factor (call_with 1 1 "no" 1 3 "naive" "no")).
Proof.
  split.
  - eexists. split.
    + run_call. reflexivity.
    + run_call. replace (0 + 1 * 1) with 1 by ring. rewrite sqrt_1. lra.
  - destruct (wide_evaluation_result (Z.to_nat 5001)
                (fst (new_regressors
                        (make_config (call_with 1 1 "no" 1 3 "naive" "no") 1)
                        (Z.to_nat 5001) 0))
                (call_with 1 1 "no" 1 3 "naive" "no"))
      as (res & Ft & Eb & Hev & Hloop & Hwf & Hr & Hc & Hent & Hsum & Hres).
    + lia.
    + apply new_regressors_spec.
    + assert (Hn : INR (Z.to_nat 5001) = 5001)
        by (rewrite INR_IZR_INZ, Z2Nat.id by lia; reflexivity).
      rewrite Hn in Hsum.
      assert (Hexc : rowsum_except Eb errorbar_sentinel 0 = 5000).
      { rewrite rowsum_except_in_range
          by (rewrite Hc; unfold errorbar_sentinel; lia).
        rewrite Hsum, Hent by (unfold errorbar_sentinel; lia). lra. }
      rewrite Hexc in Hres. change (scale_factor _) with 1 in Hres.
      exists res, Ft, Eb.
      split; [exact Hev|]. split; [exact Hloop|]. split; [exact Hsum|].
      split; [exact Hres|].
      rewrite Hres, Hsum. change (scale_factor _) with 1.
      intro H. assert (H' : sqrt 5000 = sqrt 5001) by lra.
      apply sqrt_inj in H'; lra.
Qed.

(** ** The train RMSE history *)

Section History.

Context {lib : External}.
Variables (X_train : DataFrame) (y_train : vec) (p : params).
Variable combos : list (list label).

(** A cycle appends one entry to the history: the [rmse] of the scaled
    target against the scaled [sumcol] of the matrix it leaves, with the
    sentinel 10000 as exclusion index. *)
Lemma cycle_records_train_rmse k st st' :
  cycle X_train y_train p combos k st = Ok st' ->
  exists F',
    st_F st' = Some F' /\
    st_rmse_train st' = st_rmse_train st ++ [train_rmse y_train p F'].
Proof.
  unfold cycle. intro H.
  destruct (decay_block p (length combos) k (st_alpha st) (st_GPR st)
              (st_next st)) as [[a G] n].
  bind_inv H. destruct a1 as [G' F']. injection H as <-.
  exists F'. split; reflexivity.
Qed.

(** One entry per cycle, in the order of the cycles. *)
Lemma train_loop_history_length ks : forall st st',
  train_loop X_train y_train p combos ks st = Ok st' ->
  exists entries,
    st_rmse_train st' = st_rmse_train st ++ entries /\
    length entries = length ks.
Proof.
  induction ks as [|k ks IH]; intros st st' H; cbn [train_loop] in H.
  - injection H as <-. exists []. now rewrite app_nil_r.
  - bind_inv H.
    match goal with Hc : cycle _ _ _ _ _ _ = Ok _ |- _ =>
      apply cycle_records_train_rmse in Hc; destruct Hc as (F' & _ & Hh) end.
    apply IH in H. destruct H as (entries & He & Hl).
    exists (train_rmse y_train p F' :: entries). split.
    + rewrite He, Hh, <- app_assoc. reflexivity.
    + cbn. now rewrite Hl.
Qed.

(** While the matrix has at most 10000 columns the recorded entry is the
    specified one. *)
Lemma train_rmse_within_sentinel F :
  wf_matrix F -> (Z.of_nat (ncols F) <= rowsum_sentinel)%Z ->
  train_rmse y_train p F = specified_train_rmse y_train p F.
Proof.
  intros Hwf HM. unfold train_rmse, specified_train_rmse. do 2 f_equal.
  apply nth_ext with (d := 0) (d' := 0).
  - rewrite sumcol_length by assumption. unfold rowsums.
    now rewrite length_map, length_seq.
  - intros r Hr. rewrite sumcol_length in Hr by assumption.
    rewrite sumcol_nth by assumption.
    rewrite rowsum_except_out_of_range by (right; exact HM).
    unfold rowsums.
    rewrite (nth_indep _ 0 (rowsum F 0)) by (now rewrite length_map, length_seq).
    rewrite map_nth, seq_nth by assumption. reflexivity.
Qed.

End History.

Lemma wide_F_wf : wf_matrix wide_F.
Proof. unfold wf_matrix, wide_F. cbn [cols nrows]. now apply Forall_repeat. Qed.

Lemma wide_F_entry c : (c < Z.to_nat 10001)%nat -> entry wide_F 0 c = 1.
Proof.
  intro H. unfold entry, col, wide_F. cbn [cols].
  rewrite nth_repeat_lt by assumption. cbn [nth]. lra.
Qed.

Lemma wide_F_ncols : ncols wide_F = Z.to_nat 10001.
Proof. unfold ncols, wide_F. cbn [cols]. apply repeat_length. Qed.

Lemma wide_F_rowsum : rowsum wide_F 0 = 10001.
Proof.
  unfold rowsum. rewrite wide_F_ncols.
  rewrite (big_sum_ext_in _ (fun _ => 1)).
  - rewrite big_sum_const, length_seq, INR_IZR_INZ, Z2Nat.id by lia. lra.
  - intros c Hc. apply in_seq in Hc. apply wide_F_entry. lia.
Qed.

Lemma wide_F_sumcol : sumcol wide_F rowsum_sentinel = [10000].
Proof.
  pose proof (sumcol_length wide_F rowsum_sentinel wide_F_wf) as Hlen.
  assert (Hnth : nth 0 (sumcol wide_F rowsum_sentinel) 0 = 10000).
  { rewrite sumcol_nth by (auto using wide_F_wf; cbn; lia).
    rewrite rowsum_except_in_range
      by (rewrite wide_F_ncols; unfold rowsum_sentinel; lia).
    rewrite wide_F_rowsum, wide_F_entry by (unfold rowsum_sentinel; lia). lra. }
  destruct (sumcol wide_F rowsum_sentinel) as [|x [|x' v]];
    cbn in Hlen; try discriminate.
  cbn in Hnth. now rewrite Hnth.
Qed.

Lemma wide_F_rowsums : rowsums wide_F = [10001].
Proof.
  unfold rowsums. cbn [wide_F nrows seq map]. fold wide_F.
  now rewrite wide_F_rowsum.
Qed.

Lemma wide_F_train_rmse p :
  scale_factor p = 1 ->
  specified_train_rmse wide_y p wide_F = 0 /\ train_rmse wide_y p wide_F = 1.
Proof.
  intro Hs. split.
  - unfold specified_train_rmse. rewrite wide_F_rowsums, Hs.
    unfold rmse, wide_y, vsquare, vsub, vmap2, vscale, vsum.
    cbn [map combine fst snd fold_left length INR].
    replace ((0 + (10001 * 1 - 10001 * 1) ^ 2) / 1) with 0 by (simpl; field).
    apply sqrt_0.
  - unfold train_rmse. rewrite wide_F_sumcol, Hs.
    unfold rmse, wide_y, vsquare, vsub, vmap2, vscale, vsum.
    cbn [map combine fst snd fold_left length INR].
    replace ((0 + (10000 * 1 - 10001 * 1) ^ 2) / 1) with 1 by (simpl; field).
    apply sqrt_1.
Qed.

(** ** A call on the wide data set *)

Lemma combinations_one {A} (l : list A) :
  combinations l 1 = map (fun x => [x]) l.
Proof.
  induction l as [|x l IH]; [reflexivity|].
  cbn [combinations map]. rewrite IH.
  destruct l; reflexivity.
Qed.

Lemma wide_labels n : df_labels (wide_X n) = seq 0 n.
Proof.
  unfold df_labels, wide_X. cbn [df_columns]. rewrite map_map. cbn [fst].
  apply map_id.
Qed.

Lemma wide_all_combos n p :
  order p = 1%Z -> all_combos (wide_X n) p = Ok (wide_combos n).
Proof.
  intro H. unfold all_combos, itertools_combinations. rewrite H.
  cbn [Z.ltb Z.compare]. rewrite wide_labels.
  change (Z.to_nat 1) with 1%nat. now rewrite combinations_one.
Qed.

(** With three cycles the ramp is 1 in every cycle. *)
Lemma scale_ramp_three_cycles k : scale_ramp 3 k = Ok 1.
Proof.
  rewrite scale_ramp_defined by lia. f_equal.
  change (3 / 3)%Z with 1%Z. apply Rmin_left.
  assert (0 <= IZR (Z.of_nat k)) by (apply IZR_le; lia).
  rewrite plus_IZR. lra.
Qed.

(** Writing the same column [c] at every index. *)
Lemma list_set_at_length {A} (pre : list A) x suf c :
  list_set (pre ++ x :: suf) (length pre) c = pre ++ c :: suf.
Proof. induction pre as [|h pre IH]; cbn; [|rewrite IH]; reflexivity. Qed.

Lemma fold_list_set_all {A} (c : A) m : forall pre suf,
  length suf = m ->
  fold_left (fun l i => list_set l i c) (seq (length pre) m) (pre ++ suf) =
  pre ++ repeat c m.
Proof.
  induction m as [|m IH]; intros pre suf H.
  - destruct suf; [reflexivity | discriminate].
  - destruct suf as [|x suf]; [discriminate|]. injection H as H.
    cbn [seq fold_left repeat]. rewrite list_set_at_length.
    replace (S (length pre)) with (length (pre ++ [c]))
      by (rewrite length_app; cbn; lia).
    replace (pre ++ c :: suf) with ((pre ++ [c]) ++ suf)
      by (now rewrite <- app_assoc).
    rewrite IH by assumption. now rewrite <- app_assoc.
Qed.

Lemma fold_set_col_cols c idx : forall F,
  fold_left (fun G i => set_col G i c) idx F =
  mkMatrix (nrows F) (fold_left (fun l i => list_set l i c) idx (cols F)).
Proof.
  induction idx as [|i idx IH]; intro F; cbn [fold_left].
  - now destruct F.
  - rewrite IH. reflexivity.
Qed.

Lemma fold_set_col_all c n F :
  ncols F = n ->
  fold_left (fun G i => set_col G i c) (seq 0 n) F =
  mkMatrix (nrows F) (repeat c n).
Proof.
  intro H. rewrite fold_set_col_cols. f_equal.
  apply (fold_list_set_all c n [] (cols F)). exact H.
Qed.

Section WideRun.

Variable n : nat.
Variable y : vec.
Variable p : params.
Hypothesis Hmixe : mixe p = "no"%string.
Hypothesis Hdecay : use_decay_alpha p = "no"%string.
Hypothesis Hcycles : number_cycles p = 3%Z.

(** One step of the toy library on the wide data set writes the column
    [[1 * 1]]: the prediction 1 times the ramp 1. *)
Lemma wide_update k i GPR F :
  (i < n)%nat -> (i < length GPR)%nat ->
  exists GPR',
    update_component (lib := constant_stub) (wide_X n) y p (wide_combos n)
      k i (GPR, F) = Ok (GPR', set_col F i [1 * 1]) /\
    length GPR' = length GPR.
Proof.
  intros Hi HG. unfold update_component.
  rewrite wide_select by assumption. cbn [bind]. unfold py_index.
  destruct (nth_error GPR i) as [g|] eqn:Eg;
    [|apply nth_error_None in Eg; lia].
  cbn [bind fit gpr_fit constant_stub predict predict_std gpr_predict fst].
  rewrite Hcycles, scale_ramp_three_cycles. cbn [bind].
  unfold blend. rewrite Hmixe. cbn [String.eqb Ascii.eqb Bool.eqb].
  rewrite set_col_twice. eexists. split; [reflexivity|].
  apply list_set_length.
Qed.

Lemma wide_inner_loop k idx : forall GPR F,
  (forall i, In i idx -> (i < n)%nat) -> length GPR = n ->
  exists GPR',
    inner_loop (lib := constant_stub) (wide_X n) y p (wide_combos n) k idx
      (GPR, F) =
    Ok (GPR', fold_left (fun G i => set_col G i [1 * 1]) idx F) /\
    length GPR' = n.
Proof.
  induction idx as [|i idx IH]; intros GPR F Hidx HG.
  - exists GPR. split; [reflexivity | assumption].
  - destruct (wide_update k i GPR F) as (G1 & Hstep & HG1).
    + apply Hidx. now left.
    + rewrite HG. apply Hidx. now left.
    + cbn [inner_loop fold_left]. rewrite Hstep. cbn [bind].
      apply IH; [intros j Hj; apply Hidx; now right | congruence].
Qed.

(** A cycle leaves every column at [[1 * 1]] and records the RMSE of that
    matrix. *)
Lemma wide_cycle k st F :
  st_F st = Some F -> ncols F = n -> length (st_GPR st) = n ->
  exists GPR',
    cycle (lib := constant_stub) (wide_X n) y p (wide_combos n) k st =
    Ok (mkState (st_alpha st) GPR'
          (Some (mkMatrix (nrows F) (repeat [1 * 1] n)))
          (st_rmse_train st ++
           [train_rmse y p (mkMatrix (nrows F) (repeat [1 * 1] n))])
          (st_next st)) /\
    length GPR' = n.
Proof.
  intros HF Hc HG. unfold cycle.
  rewrite decay_block_no by (rewrite Hdecay; discriminate).
  rewrite HF. cbn [py_var bind]. rewrite wide_combos_length.
  destruct (wide_inner_loop k (seq 0 n) (st_GPR st) F) as (G' & Hloop & HG').
  - intros i Hi. apply in_seq in Hi. lia.
  - assumption.
  - rewrite Hloop. cbn [bind]. rewrite fold_set_col_all by assumption.
    exists G'. split; [reflexivity | assumption].
Qed.

Lemma wide_train_loop ks : forall st F,
  st_F st = Some F -> ncols F = n -> length (st_GPR st) = n ->
  exists st',
    train_loop (lib := constant_stub) (wide_X n) y p (wide_combos n) ks st =
      Ok st' /\
    length (st_GPR st') = n /\
    st_rmse_train st' =
      st_rmse_train st ++
      repeat (train_rmse y p (mkMatrix (nrows F) (repeat [1 * 1] n)))
        (length ks) /\
    (ks <> [] -> st_F st' = Some (mkMatrix (nrows F) (repeat [1 * 1] n))).
Proof.
  induction ks as [|k ks IH]; intros st F HF Hc HG.
  - exists st. cbn [train_loop length repeat]. rewrite app_nil_r.
    repeat split; auto. congruence.
  - destruct (wide_cycle k st F HF Hc HG) as (G1 & Hcyc & HG1).
    cbn [train_loop]. rewrite Hcyc. cbn [bind].
    destruct (IH (mkState (st_alpha st) G1
                    (Some (mkMatrix (nrows F) (repeat [1 * 1] n)))
                    (st_rmse_train st ++
                     [train_rmse y p (mkMatrix (nrows F) (repeat [1 * 1] n))])
                    (st_next st))
                 (mkMatrix (nrows F) (repeat [1 * 1] n)))
      as (st' & Hrun & HG' & Hh & HF'); auto.
    { unfold ncols. cbn [cols]. apply repeat_length. }
    exists st'. split; [exact Hrun|]. split; [exact HG'|]. split.
    + rewrite Hh. cbn [st_rmse_train nrows length repeat].
      now rewrite <- app_assoc.
    + intros _. destruct ks as [|k' ks'].
      * cbn [train_loop] in Hrun. injection Hrun as <-. reflexivity.
      * apply HF'. discriminate.
Qed.

End WideRun.

Lemma evaluate_keeps_history {lib : External} X_test y_test p combos GPR h res :
  evaluate X_test y_test p combos GPR h = Ok res ->
  res_rmse_train res = h /\ res_GPR res = GPR.
Proof.
  intro H. unfold evaluate in H. bind_inv H. destruct a as [Ftest errorbars].
  injection H as <-. split; reflexivity.
Qed.

(** The train block of a first-order call with three cycles on the wide
    data set, with the toy library. *)
Lemma wide_train_block n y p :
  (0 < n)%nat ->
  order p = 1%Z -> init p = "naive"%string -> mixe p = "no"%string ->
  use_decay_alpha p = "no"%string -> number_cycles p = 3%Z ->
  exists st,
    train_block (lib := constant_stub) (wide_X n) y p =
      Ok (wide_combos n, st) /\
    length (st_GPR st) = n /\
    st_F st = Some (mkMatrix 1 (repeat [1 * 1] n)) /\
    st_rmse_train st =
      repeat (train_rmse y p (mkMatrix 1 (repeat [1 * 1] n))) 3.
Proof.
  intros Hn Horder Hinit Hmixe Hdecay Hcycles. unfold train_block.
  rewrite wide_all_combos by assumption. cbn [bind].
  unfold initialize. rewrite Hinit. cbn [String.eqb Ascii.eqb Bool.eqb].
  rewrite wide_combos_length. unfold py_truediv.
  destruct (Z.eqb_spec (Z.of_nat n) 0) as [E|_]; [lia|]. cbn [bind].
  cbn [new_regressors]. rewrite Hcycles.
  change (py_range 3) with [0; 1; 2]%nat.
  match goal with
  | |- context [train_loop _ _ _ _ _ ?st0] =>
      destruct (wide_train_loop n y p Hmixe Hdecay Hcycles [0; 1; 2]%nat st0
                  (mkMatrix (df_nrows (wide_X n))
                     (repeat
                        (map (Rmult (IZR 1 / IZR (Z.of_nat n) * vmean y))
                           (ones (df_nrows (wide_X n)))) n)))
        as (st & Hrun & HG & Hh & HF)
  end.
  - reflexivity.
  - unfold ncols. cbn [cols]. apply repeat_length.
  - cbn [st_GPR]. now rewrite length_map, length_seq.
  - rewrite Hrun. cbn [bind]. exists st. split; [reflexivity|].
    split; [exact HG|]. split.
    + apply HF. discriminate.
    + rewrite Hh. reflexivity.
Qed.

(** C5.  A first-order call with three cycles on a data set of one sample
    with 10001 features, hence 10001 combinations, run with the toy library
    (prediction 1, ramp 1) and the target 10001: the cycle loop ends with a
    component matrix of 10001 columns, every cell 1, whose full row sum is
    10001, so that the specified train RMSE is 0; but [sumcol] with the
    exclusion index 10000 leaves the last column out, the recorded sum is
    10000, and the history returned is [[1; 1; 1]]. *)
Theorem train_rmse_skips_column_10000 :
  exists st res,
    train_block (lib := constant_stub) (wide_X (Z.to_nat 10001)) wide_y
      (call_with 1 1 "no" 1 3 "naive" "no") =
      Ok (wide_combos (Z.to_nat 10001), st) /\
    st_F st = Some wide_F /\
    RS_HDMR_GPR (lib := constant_stub) (wide_X (Z.to_nat 10001)) wide_y
      (wide_X (Z.to_nat 10001)) wide_y (call_with 1 1 "no" 1 3 "naive" "no") =
      Ok res /\
    res_rmse_train res = st_rmse_train st /\
    res_rmse_train res = [1; 1; 1] /\
    ncols wide_F = Z.to_nat 10001 /\
    rowsums wide_F = [10001] /\
    sumcol wide_F rowsum_sentinel = [10000] /\
    specified_train_rmse wide_y (call_with 1 1 "no" 1 3 "naive" "no") wide_F
      = 0 /\
    train_rmse wide_y (call_with 1 1 "no" 1 3 "naive" "no") wide_F = 1.
Proof.
  set (p := call_with 1 1 "no" 1 3 "naive" "no").
  destruct (wide_F_train_rmse p eq_refl) as [Hspec Hcode].
  destruct (wide_train_block (Z.to_nat 10001) wide_y p)
    as (st & Hblock & HG & HF & Hh); try reflexivity; [lia|].
  fold wide_F in HF, Hh. rewrite Hcode in Hh. cbn [repeat] in Hh.
  destruct (evaluate (lib := constant_stub) (wide_X (Z.to_nat 10001)) wide_y p
              (wide_combos (Z.to_nat 10001)) (st_GPR st) (st_rmse_train st))
    as [res|e] eqn:E.
  - exists st, res.
    destruct (evaluate_keeps_history _ _ _ _ _ _ _ E) as [Hres _].
    split; [exact Hblock|]. split; [exact HF|]. split.
    { unfold RS_HDMR_GPR. rewrite Hblock. cbn [bind]. exact E. }
    split; [exact Hres|]. split; [now rewrite Hres|].
    split; [apply wide_F_ncols|]. split; [apply wide_F_rowsums|].
    split; [apply wide_F_sumcol|]. split; assumption.
  - exfalso. apply (f_equal is_ok) in E.
    rewrite evaluate_constant_stub_ok in E; [discriminate| |].
    + intros i Hi. rewrite wide_combos_length in Hi. now rewrite wide_select.
    + now rewrite wide_combos_length.
Qed.

(** ** Instances on the small inputs *)

Lemma sumcol_excludes_exactly_column_j_witness :
  wf_matrix example_F /\
  nth 0 (sumcol example_F 1) 0 = rowsum example_F 0 - entry example_F 0 1 /\
  nth 0 (sumcol example_F 7) 0 = rowsum example_F 0.
Proof.
  assert (Hwf : wf_matrix example_F) by (repeat constructor).
  split; [exact Hwf|]. split.
  - destruct (sumcol_excludes_exactly_column_j example_F 1 Hwf) as (_ & H & _).
    destruct (H 0%nat) as [Hin _]; [cbn; lia|].
    destruct Hin as [_ Hminus]; [cbn; lia|]. exact Hminus.
  - destruct (sumcol_excludes_exactly_column_j example_F 7 Hwf) as (_ & H & _).
    destruct (H 0%nat) as [_ Hout]; [cbn; lia|].
    apply Hout. cbn. lia.
Defined.

Lemma rmse_formula_zero_symmetric_witness :
  rmse [1; 2] [3; 5] =
    sqrt (big_sum (fun i => (nth i [3; 5] 0 - nth i [1; 2] 0) ^ 2) (seq 0 2)
          / INR 2) /\
  rmse [1; 2] [1; 2] = 0 /\
  rmse [1; 2] [3; 5] = rmse [3; 5] [1; 2].
Proof.
  destruct rmse_formula_zero_symmetric as (Hformula & Hzero & Hsym).
  split; [|split].
  - apply (Hformula [1; 2] [3; 5]); [reflexivity | cbn; lia].
  - apply (Hzero [1; 2]). cbn; lia.
  - apply (Hsym [1; 2] [3; 5]); [reflexivity | cbn; lia].
Defined.

Lemma naive_init_splits_the_mean_witness :
  exists F : matrix,
    initialize (lib := constant_stub) toy_X toy_y
      (call_with 1 1 "no" 1 4 "naive" "no") toy_combos1 = Ok (Some F) /\
    (forall r, (r < nrows F)%nat -> rowsum F r = vmean toy_y).
Proof.
  destruct (naive_init_splits_the_mean (lib := constant_stub) toy_X toy_y
              (call_with 1 1 "no" 1 4 "naive" "no") toy_combos1)
    as (F & Hinit & _ & _ & _ & _ & Hrow & _).
  - reflexivity.
  - cbn. lia.
  - exists F. split; assumption.
Defined.

(** * Further properties of the code *)

(** ** [sumcol]: indices out of range and the excluded column *)

Lemma sumcol_loop_out_of_range cs : forall i j j' s,
  (j < Z.of_nat i \/ Z.of_nat (i + length cs) <= j)%Z ->
  (j' < Z.of_nat i \/ Z.of_nat (i + length cs) <= j')%Z ->
  sumcol_loop cs i j s = sumcol_loop cs i j' s.
Proof.
  induction cs as [|c cs IH]; intros i j j' s Hj Hj'; [reflexivity|].
  cbn [sumcol_loop length] in *.
  destruct (Z.eqb_spec (Z.of_nat i) j); [lia|].
  destruct (Z.eqb_spec (Z.of_nat i) j'); [lia|].
  apply IH; lia.
Qed.

(** X3.  Any exclusion index out of range, negative ones included, makes
    [sumcol] sum every column: a negative index does not count from the last
    column.  In particular [sumcol(F, -1)] is the full row sum. *)
Theorem sumcol_negative_index_excludes_nothing (F : matrix) (j j' : Z) :
  (j < 0 \/ Z.of_nat (ncols F) <= j)%Z ->
  (j' < 0 \/ Z.of_nat (ncols F) <= j')%Z ->
  sumcol F j = sumcol F j' /\
  (wf_matrix F ->
   forall r, (r < nrows F)%nat -> nth r (sumcol F j) 0 = rowsum F r).
Proof.
  intros Hj Hj'. split.
  - unfold sumcol. apply sumcol_loop_out_of_range; unfold ncols in *;
      cbn [Nat.add]; lia.
  - intros Hwf r Hr. rewrite sumcol_nth by assumption.
    now apply rowsum_except_out_of_range.
Qed.

Lemma sumcol_negative_index_excludes_nothing_witness :
  sumcol example_F (-1) = sumcol example_F 10000 /\
  nth 0 (sumcol example_F (-1)) 0 = rowsum example_F 0.
Proof.
  destruct (sumcol_negative_index_excludes_nothing example_F (-1) 10000)
    as [Heq Hsum].
  - left. lia.
  - right. cbn. lia.
  - split; [exact Heq|]. apply Hsum; [repeat constructor | cbn; lia].
Defined.

Lemma sumcol_loop_list_set cs : forall k i v s,
  sumcol_loop (list_set cs k v) i (Z.of_nat (i + k)) s =
  sumcol_loop cs i (Z.of_nat (i + k)) s.
Proof.
  induction cs as [|c cs IH]; intros [|k] i v s; cbn [list_set sumcol_loop];
    try reflexivity.
  - rewrite Nat.add_0_r, Z.eqb_refl. reflexivity.
  - destruct (Z.eqb_spec (Z.of_nat i) (Z.of_nat (i + S k))); [lia|].
    replace (i + S k)%nat with (S i + k)%nat by lia. apply IH.
Qed.

(** X4.  The sum that excludes column [i] does not depend on the content of
    column [i]: writing any vector into that column leaves [sumcol(F, i)],
    and therefore the residual of combination [i], unchanged.  (The residual
    that a combination learns is independent of its own current estimate.) *)
Theorem sumcol_ignores_the_excluded_column
    (F : matrix) (i : nat) (v y_train : vec) :
  sumcol (set_col F i v) (Z.of_nat i) = sumcol F (Z.of_nat i) /\
  residual y_train (set_col F i v) i = residual y_train F i.
Proof.
  assert (H : sumcol (set_col F i v) (Z.of_nat i) = sumcol F (Z.of_nat i)).
  { unfold sumcol, set_col. cbn [cols nrows].
    apply (sumcol_loop_list_set (cols F) i 0 v). }
  split; [exact H|]. unfold residual. now rewrite H.
Qed.

(** ** The scale ramp for three cycles or more *)

(** X5.  With [number_cycles >= 3] the ramp of every cycle is defined, lies
    in (1/2, 1], does not decrease from one cycle to the next, and is 1
    exactly when [2 (k + 1) >= floor(number_cycles / 3)]: the damping ends
    after half of [floor(number_cycles / 3)] cycles. *)
Theorem scale_ramp_bounds_and_saturation (number_cycles : Z) (k : nat) :
  (3 <= number_cycles)%Z ->
  exists r r',
    scale_ramp number_cycles k = Ok r /\
    scale_ramp number_cycles (S k) = Ok r' /\
    1 / 2 < r /\ r <= r' /\ r' <= 1 /\
    (r = 1 <-> (number_cycles / 3 <= 2 * (Z.of_nat k + 1))%Z).
Proof.
  intro Hn.
  assert (Hm : (1 <= number_cycles / 3)%Z)
    by (apply Z.div_le_lower_bound; lia).
  set (m := (number_cycles / 3)%Z) in *.
  assert (HmR : 1 <= IZR m) by (apply IZR_le; exact Hm).
  assert (HkR : 0 <= IZR (Z.of_nat k)) by (apply IZR_le; lia).
  exists (Rmin 1 (IZR (Z.of_nat k + 1) / IZR m + 1 / 2)),
         (Rmin 1 (IZR (Z.of_nat (S k) + 1) / IZR m + 1 / 2)).
  split; [now apply scale_ramp_defined|].
  split; [now apply scale_ramp_defined|].
  rewrite Nat2Z.inj_succ. unfold Z.succ. rewrite !plus_IZR.
  set (q := (IZR (Z.of_nat k) + 1) / IZR m).
  assert (Hq : 0 < q) by (unfold q; apply Rdiv_lt_0_compat; lra).
  assert (Hq' : q <= (IZR (Z.of_nat k) + 1 + 1) / IZR m).
  { unfold q, Rdiv. apply Rmult_le_compat_r; [|lra].
    left. apply Rinv_0_lt_compat. lra. }
  split; [|split; [|split]].
  - apply Rmin_glb_lt; lra.
  - apply Rle_min_compat_l. lra.
  - apply Rmin_l.
  - split.
    + intro H.
      assert (Hge : 1 <= q + 1 / 2).
      { destruct (Rle_dec 1 (q + 1 / 2)) as [|Hlt]; [assumption|].
        rewrite Rmin_right in H by lra. lra. }
      assert (Hr : IZR m <= 2 * (IZR (Z.of_nat k) + 1)).
      { assert (Hinv : IZR m * / IZR m = 1) by (apply Rinv_r; lra).
        assert (Hpos : 0 < / IZR m) by (apply Rinv_0_lt_compat; lra).
        unfold q, Rdiv in Hge. nra. }
      apply le_IZR. rewrite mult_IZR, plus_IZR. exact Hr.
    + intro H. apply IZR_le in H. rewrite mult_IZR, plus_IZR in H.
      apply Rmin_left.
      assert (Hd : 1 / 2 <= q).
      { assert (Hinv : IZR m * / IZR m = 1) by (apply Rinv_r; lra).
        assert (Hpos : 0 < / IZR m) by (apply Rinv_0_lt_compat; lra).
        unfold q, Rdiv. nra. }
      lra.
Qed.

Lemma scale_ramp_bounds_and_saturation_witness :
  exists r r',
    scale_ramp 30 2 = Ok r /\ scale_ramp 30 3 = Ok r' /\
    1 / 2 < r /\ r <= r' /\ r' <= 1 /\ (r = 1 <-> (30 / 3 <= 2 * (2 + 1))%Z).
Proof. apply (scale_ramp_bounds_and_saturation 30 2). lia. Defined.

(** ** Calls with an unknown initialisation or without cycles *)

Lemma initialize_unknown {lib : External} X_train y_train p combos :
  init p <> "naive"%string -> init p <> "poly"%string ->
  initialize X_train y_train p combos = Ok None.
Proof.
  intros Hn Hp. unfold initialize.
  apply String.eqb_neq in Hn. apply String.eqb_neq in Hp.
  rewrite Hn, Hp. reflexivity.
Qed.

Lemma cycle_unbound {lib : External} X_train y_train p combos k st :
  st_F st = None ->
  cycle X_train y_train p combos k st = Raise UnboundLocalError.
Proof.
  intro H. unfold cycle.
  destruct (decay_block p (length combos) k (st_alpha st) (st_GPR st)
              (st_next st)) as [[a G] n].
  rewrite H. reflexivity.
Qed.

(** X6.  When [init] is neither ['naive'] nor ['poly'] the component matrix
    is never assigned: if the enumeration succeeds and at least one cycle is
    asked for, the call raises [UnboundLocalError] in its first cycle,
    whatever the data and the regression library. *)
Theorem unknown_init_raises_in_the_first_cycle
    {lib : External} (X_train : DataFrame) (y_train : vec)
    (X_test : DataFrame) (y_test : vec) (p : params) :
  (0 <= order p)%Z ->
  init p <> "naive"%string -> init p <> "poly"%string ->
  (1 <= number_cycles p)%Z ->
  RS_HDMR_GPR X_train y_train X_test y_test p = Raise UnboundLocalError.
Proof.
  intros Ho Hn Hp Hc. unfold RS_HDMR_GPR, train_block.
  rewrite all_combos_order_in_range by assumption. cbn [bind].
  rewrite initialize_unknown by assumption. cbn [bind new_regressors].
  unfold py_range.
  destruct (Z.to_nat (number_cycles p)) as [|m] eqn:E; [lia|].
  cbn [seq train_loop]. rewrite cycle_unbound by reflexivity. reflexivity.
Qed.

Lemma unknown_init_raises_in_the_first_cycle_witness :
  RS_HDMR_GPR (lib := constant_stub) toy_X toy_y toy_X toy_y
    (call_with 2 1 "no" 1 4 "Naive" "no") = Raise UnboundLocalError.
Proof.
  apply (unknown_init_raises_in_the_first_cycle (lib := constant_stub)).
  - cbn. lia.
  - discriminate.
  - discriminate.
  - cbn. lia.
Defined.

(** X7.  With [number_cycles <= 0] the cycle loop does not run: a call that
    returns has an empty RMSE history, and the regressors it returns (and
    has evaluated the test set with) are the ones created before the loop,
    none of them fitted. *)
Theorem no_cycle_returns_unfitted_regressors
    {lib : External} (X_train : DataFrame) (y_train : vec)
    (X_test : DataFrame) (y_test : vec) (p : params) (res : fit_result) :
  (number_cycles p <= 0)%Z ->
  RS_HDMR_GPR X_train y_train X_test y_test p = Ok res ->
  res_rmse_train res = [] /\
  exists combos,
    all_combos X_train p = Ok combos /\
    res_GPR res =
      fst (new_regressors (make_config p (alpha p)) (length combos) 0) /\
    Forall (fun g => fitted_on g = None) (res_GPR res) /\
    evaluate X_test y_test p combos (res_GPR res) [] = Ok res.
Proof.
  intros Hc H. unfold RS_HDMR_GPR in H. bind_inv H. destruct a as [combos st].
  match goal with Ht : train_block _ _ _ = Ok _ |- _ =>
    unfold train_block in Ht; bind_inv Ht; cbn [new_regressors] in Ht;
    unfold py_range in Ht;
    replace (Z.to_nat (number_cycles p)) with 0%nat in Ht by lia;
    cbn [seq train_loop bind] in Ht; injection Ht as <- <- end.
  cbn [st_GPR st_rmse_train] in H.
  destruct (evaluate_keeps_history _ _ _ _ _ _ _ H) as [Hh HG].
  split; [exact Hh|].
  match goal with Ec : all_combos _ _ = Ok ?c |- _ => exists c end.
  split; [reflexivity|]. split; [exact HG|]. split.
  - rewrite HG. cbn [fst]. apply Forall_map, Forall_forall. reflexivity.
  - rewrite HG. exact H.
Qed.

Lemma no_cycle_returns_unfitted_regressors_witness :
  exists res,
    RS_HDMR_GPR (lib := constant_stub) toy_X toy_y toy_X toy_y
      (call_with 2 1 "no" 1 0 "naive" "no") = Ok res /\
    res_rmse_train res = [] /\
    Forall (fun g => fitted_on g = None) (res_GPR res).
Proof.
  destruct (RS_HDMR_GPR (lib := constant_stub) toy_X toy_y toy_X toy_y
              (call_with 2 1 "no" 1 0 "naive" "no")) as [res|e] eqn:E.
  - exists res. split; [reflexivity|].
    destruct (no_cycle_returns_unfitted_regressors (lib := constant_stub)
                toy_X toy_y toy_X toy_y (call_with 2 1 "no" 1 0 "naive" "no")
                res) as (Hh & combos & _ & _ & Hf & _).
    + cbn. lia.
    + exact E.
    + split; assumption.
  - exfalso. apply (f_equal is_ok) in E. vm_compute in E. discriminate E.
Defined.

(** ** What a returned call holds *)

Lemma cycle_GPR_length {lib : External} X_train y_train p combos k st st' :
  length (st_GPR st) = length combos ->
  cycle X_train y_train p combos k st = Ok st' ->
  length (st_GPR st') = length combos.
Proof.
  intros HG H.
  destruct (string_dec (use_decay_alpha p) "yes") as [Hyes|Hno].
  - apply cycle_yes in H; [|assumption]. destruct H as (_ & _ & _ & Hcfg).
    apply (f_equal (@length _)) in Hcfg.
    now rewrite length_map, repeat_length in Hcfg.
  - apply cycle_no in H; [|assumption]. destruct H as (_ & _ & Hid & _).
    apply (f_equal (@length _)) in Hid. rewrite !length_map in Hid. congruence.
Qed.

Lemma train_loop_GPR_length {lib : External} X_train y_train p combos ks :
  forall st st',
  length (st_GPR st) = length combos ->
  train_loop X_train y_train p combos ks st = Ok st' ->
  length (st_GPR st') = length combos.
Proof.
  induction ks as [|k ks IH]; intros st st' HG H; cbn [train_loop] in H.
  - injection H as <-. exact HG.
  - bind_inv H. eapply IH; [|exact H]. eapply cycle_GPR_length; eauto.
Qed.

(** X8.  A call that returns holds one train RMSE per cycle and one
    regressor per combination: the history has [number_cycles] entries (none
    for a non-positive number) and the list of regressors has
    C(D, order) entries. *)
Theorem returned_history_and_regressors_counts
    {lib : External} (X_train : DataFrame) (y_train : vec)
    (X_test : DataFrame) (y_test : vec) (p : params) (res : fit_result) :
  RS_HDMR_GPR X_train y_train X_test y_test p = Ok res ->
  length (res_rmse_train res) = Z.to_nat (number_cycles p) /\
  (0 <= order p)%Z /\
  length (res_GPR res) =
    binom (length (df_labels X_train)) (Z.to_nat (order p)).
Proof.
  intro H. apply call_inv in H.
  destruct H as (combos & F0 & st & Hc & _ & Hrun & HG & Hh).
  assert (Ho : (0 <= order p)%Z).
  { destruct (Z.ltb_spec (order p) 0) as [Hneg|]; [|assumption].
    rewrite all_combos_negative_order in Hc by assumption. discriminate. }
  rewrite all_combos_order_in_range in Hc by assumption. injection Hc as <-.
  split; [|split; [exact Ho|]].
  - apply train_loop_history_length in Hrun.
    destruct Hrun as (entries & He & Hl). rewrite Hh, He.
    cbn [st_rmse_train app]. rewrite Hl. unfold py_range. apply length_seq.
  - rewrite HG. apply train_loop_GPR_length in Hrun.
    + rewrite Hrun. apply combinations_length.
    + cbn [st_GPR new_regressors fst]. now rewrite length_map, length_seq.
Qed.

Lemma returned_history_and_regressors_counts_witness :
  exists res,
    RS_HDMR_GPR (lib := constant_stub) toy_X toy_y toy_X toy_y
      (call_with 1 1 "yes" 1 4 "naive" "no") = Ok res /\
    length (res_rmse_train res) = 4%nat /\ length (res_GPR res) = 2%nat.
Proof.
  destruct (RS_HDMR_GPR (lib := constant_stub) toy_X toy_y toy_X toy_y
              (call_with 1 1 "yes" 1 4 "naive" "no")) as [res|e] eqn:E.
  - exists res. split; [reflexivity|].
    destruct (returned_history_and_regressors_counts (lib := constant_stub)
                _ _ _ _ _ _ E) as (Hh & _ & HG).
    split; [exact Hh | exact HG].
  - exfalso. apply (f_equal is_ok) in E. vm_compute in E. discriminate E.
Defined.

(** ** The combinations are the subsequences *)

Lemma Subseq_nil_l {A} (l : list A) : Subseq [] l.
Proof. induction l; constructor; assumption. Qed.

Lemma Subseq_length {A} (c l : list A) :
  Subseq c l -> (length c <= length l)%nat.
Proof. induction 1; cbn; lia. Qed.

Lemma combinations_Subseq {A} (l : list A) : forall r c,
  In c (combinations l r) -> Subseq c l /\ length c = r.
Proof.
  induction l as [|x l IH]; intros [|r] c Hc; cbn [combinations] in Hc.
  - destruct Hc as [<-|[]]. split; [constructor | reflexivity].
  - destruct Hc.
  - destruct Hc as [<-|[]]. split; [apply Subseq_nil_l | reflexivity].
  - apply in_app_or in Hc. destruct Hc as [Hc|Hc].
    + apply in_map_iff in Hc. destruct Hc as (c' & <- & Hc').
      destruct (IH r c' Hc') as [Hs Hl].
      split; [now constructor | cbn; now rewrite Hl].
    + destruct (IH (S r) c Hc) as [Hs Hl]. split; [now constructor | exact Hl].
Qed.

Lemma Subseq_combinations {A} (c l : list A) :
  Subseq c l -> In c (combinations l (length c)).
Proof.
  induction 1 as [|x c l Hs IH|x c l Hs IH].
  - now left.
  - destruct c as [|y c].
    + cbn [length combinations]. now left.
    + cbn [length combinations] in *. apply in_or_app. now right.
  - cbn [length combinations]. apply in_or_app. left.
    apply in_map. exact IH.
Qed.

(** X9.  The enumeration yields exactly the subsequences of the column
    labels that have [order] elements: each combination keeps the labels in
    column order, and every such selection is enumerated (once, when the
    labels are distinct). *)
Theorem combinations_are_the_subsequences
    (X_train : DataFrame) (p : params) (combos : list (list label)) :
  all_combos X_train p = Ok combos ->
  (forall c, In c combos <->
             Subseq c (df_labels X_train) /\
             Z.of_nat (length c) = order p) /\
  (NoDup (df_labels X_train) -> NoDup combos).
Proof.
  intro H.
  assert (Ho : (0 <= order p)%Z).
  { destruct (Z.ltb_spec (order p) 0) as [Hneg|]; [|assumption].
    rewrite all_combos_negative_order in H by assumption. discriminate. }
  rewrite all_combos_order_in_range in H by assumption. injection H as <-.
  split.
  - intro c. split.
    + intro Hc. apply combinations_Subseq in Hc. destruct Hc as [Hs Hl].
      split; [exact Hs | lia].
    + intros [Hs Hl]. replace (Z.to_nat (order p)) with (length c) by lia.
      now apply Subseq_combinations.
  - intro Hnd. now apply combinations_NoDup.
Qed.

Lemma combinations_are_the_subsequences_witness :
  In [1%nat] toy_combos1 <->
  Subseq [1%nat] (df_labels toy_X) /\ Z.of_nat (length [1%nat]) = 1%Z.
Proof.
  destruct (combinations_are_the_subsequences toy_X
              (call_with 1 1 "no" 1 4 "naive" "no") toy_combos1) as [H _].
  - reflexivity.
  - apply H.
Defined.

(** ** Selecting columns by label *)

Lemma df_lookup_present cs a :
  In a (map fst cs) -> exists v, df_lookup cs a = Ok v /\ In (a, v) cs.
Proof.
  induction cs as [|[b w] cs IH]; intro H; [destruct H|].
  cbn [df_lookup]. destruct (Nat.eqb_spec a b) as [->|Hne].
  - exists w. split; [reflexivity | now left].
  - destruct H as [H|H]; [cbn in H; congruence|].
    destruct (IH H) as (v & Hv & Hin). exists v. split; [exact Hv | now right].
Qed.

Lemma df_lookup_absent cs a :
  ~ In a (map fst cs) -> df_lookup cs a = Raise KeyError.
Proof.
  induction cs as [|[b w] cs IH]; intro H; [reflexivity|].
  cbn [df_lookup]. destruct (Nat.eqb_spec a b) as [->|Hne].
  - exfalso. apply H. now left.
  - apply IH. intro Hin. apply H. now right.
Qed.

Lemma df_select_present X c :
  incl c (df_labels X) ->
  exists vs,
    df_select X c = Ok vs /\ length vs = length c /\
    Forall (fun v => exists a, In a c /\ In (a, v) (df_columns X)) vs.
Proof.
  induction c as [|a c IH]; intro H.
  - exists []. repeat split. constructor.
  - destruct (df_lookup_present (df_columns X) a) as (v & Hv & Hin).
    { apply H. now left. }
    destruct IH as (vs & Hvs & Hlen & Hall).
    { intros b Hb. apply H. now right. }
    exists (v :: vs). cbn [df_select]. unfold df_get. rewrite Hv. cbn [bind].
    rewrite Hvs. cbn [bind]. split; [reflexivity|].
    split; [cbn; now rewrite Hlen|]. constructor.
    + exists a. split; [now left | exact Hin].
    + eapply Forall_impl; [|exact Hall].
      intros w (b & Hb & Hw). exists b. split; [now right | exact Hw].
Qed.

Lemma df_select_absent X c :
  ~ incl c (df_labels X) -> df_select X c = Raise KeyError.
Proof.
  induction c as [|a c IH]; intro H.
  - exfalso. apply H. intros b [].
  - cbn [df_select]. unfold df_get.
    destruct (in_dec Nat.eq_dec a (df_labels X)) as [Hin|Hout].
    + destruct (df_lookup_present (df_columns X) a Hin) as (v & Hv & _).
      rewrite Hv. cbn [bind]. rewrite IH; [reflexivity|].
      intro Hc. apply H. intros b [<-|Hb]; [exact Hin | now apply Hc].
    + now rewrite df_lookup_absent.
Qed.

Lemma df_lookup_the_column cs a v :
  NoDup (map fst cs) -> In (a, v) cs -> df_lookup cs a = Ok v.
Proof.
  induction cs as [|[b w] cs IH]; intros Hnd Hin; [destruct Hin|].
  cbn [map fst] in Hnd. apply NoDup_cons_iff in Hnd as [Hb Hnd].
  cbn [df_lookup]. destruct Hin as [E|Hin].
  - injection E as -> ->. now rewrite Nat.eqb_refl.
  - destruct (Nat.eqb_spec a b) as [->|Hne]; [|now apply IH].
    exfalso. apply Hb. apply in_map_iff. now exists (b, v).
Qed.

(** X10.  On a frame whose column labels are pairwise distinct, a label
    selects the one column that carries it, and selecting the columns of a
    combination succeeds exactly when every label of the combination is a
    column label of the frame, and then yields one column of the frame per
    label; otherwise it raises [KeyError].  The combinations enumerated
    from such a frame always select from that frame: the train block never
    raises [KeyError] there. *)
Theorem column_selection_succeeds_iff_labels_present
    (X : DataFrame) (c : list label) :
  NoDup (df_labels X) ->
  (forall a v, In (a, v) (df_columns X) -> df_select X [a] = Ok [v]) /\
  (incl c (df_labels X) ->
   exists vs,
     df_select X c = Ok vs /\ length vs = length c /\
     Forall (fun v => exists a, In a c /\ In (a, v) (df_columns X)) vs) /\
  (~ incl c (df_labels X) -> df_select X c = Raise KeyError) /\
  (forall (p : params) (combos : list (list label)),
     all_combos X p = Ok combos -> In c combos ->
     exists vs, df_select X c = Ok vs /\ length vs = Z.to_nat (order p)).
Proof.
  intros Hnd. split.
  { intros a v Hin. cbn [df_select]. unfold df_get.
    now rewrite (df_lookup_the_column _ _ _ Hnd Hin). }
  split; [apply df_select_present|]. split; [apply df_select_absent|].
  intros p combos H Hc.
  assert (Ho : (0 <= order p)%Z).
  { destruct (Z.ltb_spec (order p) 0) as [Hneg|]; [|assumption].
    rewrite all_combos_negative_order in H by assumption. discriminate. }
  rewrite all_combos_order_in_range in H by assumption. injection H as <-.
  destruct (combinations_Subseq _ _ _ Hc) as [_ Hlen].
  destruct (df_select_present X c) as (vs & Hvs & Hl & _).
  - eapply combinations_incl; eauto.
  - exists vs. split; [exact Hvs | congruence].
Qed.

Lemma toy_X_labels_distinct : NoDup (df_labels toy_X).
Proof.
  cbn. constructor; [intros [H|[]]; discriminate H|].
  constructor; [intros []|constructor].
Qed.

Lemma column_selection_succeeds_iff_labels_present_witness :
  (exists vs, df_select toy_X [1%nat; 0%nat] = Ok vs /\ length vs = 2%nat) /\
  df_select toy_X [0%nat; 7%nat] = Raise KeyError /\
  (exists vs, df_select toy_X [0%nat; 1%nat] = Ok vs /\ length vs = 2%nat).
Proof.
  split; [|split].
  - destruct (column_selection_succeeds_iff_labels_present toy_X
                [1%nat; 0%nat] toy_X_labels_distinct) as (_ & H & _ & _).
    destruct H as (vs & Hvs & Hl & _).
    + intros a [<-|[<-|[]]]; cbn; auto.
    + exists vs. split; assumption.
  - destruct (column_selection_succeeds_iff_labels_present toy_X
                [0%nat; 7%nat] toy_X_labels_distinct) as (_ & _ & Habs & _).
    apply Habs.
    intro H. assert (Hin : In 7%nat (df_labels toy_X))
      by (apply H; right; now left).
    cbn in Hin. destruct Hin as [Hin|[Hin|[]]]; discriminate.
  - destruct (column_selection_succeeds_iff_labels_present toy_X
                [0%nat; 1%nat] toy_X_labels_distinct) as (_ & _ & _ & H).
    apply (H (call_with 2 1 "no" 1 4 "naive" "no") toy_combos).
    + reflexivity.
    + now left.
Defined.

(** X11.  A test frame that lacks a feature of the first combination makes
    the call fail in the test block only: once the train block has run with
    at least one combination, the call raises [KeyError], whatever the
    regression library. *)
Theorem test_frame_missing_a_feature_raises_after_training
    {lib : External} (X_train : DataFrame) (y_train : vec)
    (X_test : DataFrame) (y_test : vec) (p : params)
    (c : list label) (combos : list (list label)) (st : fit_state) :
  train_block X_train y_train p = Ok (c :: combos, st) ->
  ~ incl c (df_labels X_test) ->
  RS_HDMR_GPR X_train y_train X_test y_test p = Raise KeyError.
Proof.
  intros Ht Hc. unfold RS_HDMR_GPR. rewrite Ht. cbn [bind].
  unfold evaluate. cbn [length seq test_loop nth].
  now rewrite df_select_absent.
Qed.

Lemma train_block_combos {lib : External} X_train y_train p combos st :
  train_block X_train y_train p = Ok (combos, st) ->
  all_combos X_train p = Ok combos.
Proof.
  unfold train_block. intro H. bind_inv H. cbn [new_regressors] in H.
  bind_inv H. now injection H as <- _.
Qed.

Lemma test_frame_missing_a_feature_raises_after_training_witness :
  RS_HDMR_GPR (lib := constant_stub) toy_X toy_y toy_X_short toy_y
    (call_with 2 1 "no" 1 4 "naive" "no") = Raise KeyError.
Proof.
  destruct (train_block (lib := constant_stub) toy_X toy_y
              (call_with 2 1 "no" 1 4 "naive" "no")) as [[cs st]|e] eqn:E.
  - pose proof (train_block_combos _ _ _ _ _ E) as Hc.
    injection Hc as <-.
    apply (test_frame_missing_a_feature_raises_after_training
             (lib := constant_stub) toy_X toy_y toy_X_short toy_y
             (call_with 2 1 "no" 1 4 "naive" "no") [0%nat; 1%nat] [] st E).
    intro H. assert (Hin : In 1%nat (df_labels toy_X_short))
      by (apply H; right; now left).
    cbn in Hin. destruct Hin as [Hin|[]]. discriminate.
  - exfalso. apply (f_equal is_ok) in E. vm_compute in E. discriminate E.
Defined.

(** ** The polynomial initialisation *)

Lemma poly_init_loop_spec {lib : External} X_train y_train combos idx :
  forall F F',
  NoDup idx -> (forall i, In i idx -> (i < ncols F)%nat) ->
  poly_init_loop X_train y_train combos idx F = Ok F' ->
  ncols F' = ncols F /\ nrows F' = nrows F /\
  (forall i, In i idx ->
     exists a rest x f,
       nth i combos [] = a :: rest /\
       df_get X_train a = Ok x /\
       np_polyfit x y_train 3 = Ok f /\
       col F' i = map (poly1d f) x) /\
  (forall i, ~ In i idx -> col F' i = col F i).
Proof.
  induction idx as [|i idx IH]; intros F F' Hnd Hin H.
  - cbn in H. injection H as <-. repeat split; auto. intros i [].
  - cbn [poly_init_loop] in H. bind_inv H.
    inversion Hnd as [|? ? Hni Hnd']; subst.
    assert (Hi : (i < ncols F)%nat) by (apply Hin; now left).
    apply IH in H; auto.
    + destruct H as (Hc & Hr & Hset & Hother).
      rewrite ncols_set_col in Hc. cbn [set_col nrows] in Hr.
      split; [assumption|]. split; [assumption|]. split.
      * intros j [<-|Hj]; [|now apply Hset].
        rewrite (Hother i Hni), col_set_col_same by assumption.
        match goal with Hp : py_index _ 0 = Ok ?a |- _ =>
          apply py_index_Ok in Hp;
          destruct (nth i combos []) as [|a' rest] eqn:En;
            [discriminate|]; cbn in Hp; injection Hp as ->;
          exists a, rest end.
        eauto 10.
      * intros j Hj.
        assert (Hne : i <> j) by (intros ->; apply Hj; now left).
        rewrite Hother by (intro; apply Hj; now right).
        now apply col_set_col_other.
    + intros j Hj. rewrite ncols_set_col. apply Hin. now right.
Qed.

(** X12.  With [init = 'poly'], an initialisation that succeeds seeds column
    [i] with the polynomial fitted by [np.polyfit(x, y_train, 3)] evaluated
    on [x], where [x] is the column of the first feature of combination
    [i]: the other features of the combination play no part, so two
    combinations with the same first feature get the same column.  A
    polynomial with coefficients [[c3; c2; c1; c0]] is evaluated as
    [c3 t^3 + c2 t^2 + c1 t + c0]. *)
Theorem polynomial_init_uses_the_first_feature_only
    {lib : External} (X_train : DataFrame) (y_train : vec) (p : params)
    (combos : list (list label)) (F : matrix) :
  init p = "poly"%string ->
  initialize X_train y_train p combos = Ok (Some F) ->
  nrows F = df_nrows X_train /\ ncols F = length combos /\
  (forall i, (i < length combos)%nat ->
     exists a rest x f,
       nth i combos [] = a :: rest /\
       df_get X_train a = Ok x /\
       np_polyfit x y_train 3 = Ok f /\
       col F i = map (poly1d f) x) /\
  (forall i j, (i < length combos)%nat -> (j < length combos)%nat ->
     hd_error (nth i combos []) = hd_error (nth j combos []) ->
     col F i = col F j) /\
  (forall c3 c2 c1 c0 t : R,
     poly1d [c3; c2; c1; c0] t = c3 * t ^ 3 + c2 * t ^ 2 + c1 * t + c0).
Proof.
  intros Hinit H. unfold initialize in H. rewrite Hinit in H.
  cbn [String.eqb Ascii.eqb Bool.eqb bind] in H. bind_inv H.
  injection H as <-.
  match goal with Hl : poly_init_loop _ _ _ _ _ = Ok _ |- _ =>
    apply poly_init_loop_spec in Hl;
      [destruct Hl as (Hc & Hr & Hset & _)
      | apply seq_NoDup
      | intros i Hi; apply in_seq in Hi; unfold ncols; cbn [cols];
        rewrite repeat_length; lia] end.
  unfold ncols in Hc at 2. cbn [cols nrows] in Hc, Hr.
  rewrite repeat_length in Hc.
  assert (Hcols : forall i, (i < length combos)%nat ->
            exists a0 rest x f,
              nth i combos [] = a0 :: rest /\
              df_get X_train a0 = Ok x /\
              np_polyfit x y_train 3 = Ok f /\
              col a i = map (poly1d f) x).
  { intros i Hi. apply Hset. apply in_seq. lia. }
  split; [exact Hr|]. split; [exact Hc|]. split; [exact Hcols|]. split.
  - intros i j Hi Hj Hhd.
    destruct (Hcols i Hi) as (ai & ri & xi & fi & Hni & Hxi & Hfi & ->).
    destruct (Hcols j Hj) as (aj & rj & xj & fj & Hnj & Hxj & Hfj & ->).
    rewrite Hni, Hnj in Hhd. cbn in Hhd. injection Hhd as ->.
    rewrite Hxi in Hxj. injection Hxj as ->.
    rewrite Hfi in Hfj. injection Hfj as ->. reflexivity.
  - intros c3 c2 c1 c0 t. unfold poly1d. cbn [fold_left]. ring.
Qed.

Lemma polynomial_init_uses_the_first_feature_only_witness :
  exists F,
    initialize (lib := constant_stub) toy_X toy_y
      (call_with 2 1 "no" 1 4 "poly" "no") toy_combos = Ok (Some F) /\
    nrows F = 2%nat /\ ncols F = 1%nat.
Proof.
  destruct (initialize (lib := constant_stub) toy_X toy_y
              (call_with 2 1 "no" 1 4 "poly" "no") toy_combos)
    as [[F|]|e] eqn:E.
  - exists F. split; [reflexivity|].
    destruct (polynomial_init_uses_the_first_feature_only
                (lib := constant_stub) toy_X toy_y
                (call_with 2 1 "no" 1 4 "poly" "no") toy_combos F eq_refl E)
      as (Hr & Hc & _). split; assumption.
  - exfalso. vm_compute in E. discriminate E.
  - exfalso. vm_compute in E. discriminate E.
Defined.

(** X13.  With [order = 0] the enumeration yields the single empty
    combination; the polynomial initialisation then reads its first feature
    and the call raises [IndexError], whatever the data and the library. *)
Theorem order_zero_with_poly_init_raises_index_error
    {lib : External} (X_train : DataFrame) (y_train : vec)
    (X_test : DataFrame) (y_test : vec) (p : params) :
  order p = 0%Z -> init p = "poly"%string ->
  all_combos X_train p = Ok [[]] /\
  RS_HDMR_GPR X_train y_train X_test y_test p = Raise IndexError.
Proof.
  intros Ho Hinit.
  assert (Hc : all_combos X_train p = Ok [[]]).
  { unfold all_combos, itertools_combinations. rewrite Ho.
    cbn [Z.ltb Z.compare Z.to_nat]. now destruct (df_labels X_train). }
  split; [exact Hc|].
  unfold RS_HDMR_GPR, train_block. rewrite Hc. cbn [bind].
  unfold initialize. rewrite Hinit. reflexivity.
Qed.

Lemma order_zero_with_poly_init_raises_index_error_witness :
  RS_HDMR_GPR (lib := constant_stub) toy_X toy_y toy_X toy_y
    (call_with 0 1 "no" 1 4 "poly" "no") = Raise IndexError.
Proof.
  apply (order_zero_with_poly_init_raises_index_error (lib := constant_stub));
    reflexivity.
Defined.

(** ** The regressors a call returns *)

Lemma nth_error_list_set_same {A} (l : list A) : forall i x,
  (i < length l)%nat -> nth_error (list_set l i x) i = Some x.
Proof.
  induction l as [|h l IH]; intros [|i] x H; cbn in *; try lia; auto.
  apply IH. lia.
Qed.

Lemma nth_error_list_set_other {A} (l : list A) : forall i j x,
  i <> j -> nth_error (list_set l i x) j = nth_error l j.
Proof.
  induction l as [|h l IH]; intros [|i] [|j] x H; cbn; auto; congruence.
Qed.

Section FittedRegressors.

Context {lib : External}.
Variables (X_train : DataFrame) (y_train : vec) (p : params).
Variable combos : list (list label).

Lemma update_component_fits k i GPR F GPR' F' :
  update_component X_train y_train p combos k i (GPR, F) = Ok (GPR', F') ->
  (exists g xx t,
     nth_error GPR' i = Some g /\ fitted_on g = Some (xx, t) /\
     df_select X_train (nth i combos []) = Ok xx) /\
  (forall j, j <> i -> nth_error GPR' j = nth_error GPR j).
Proof.
  unfold update_component. intro H. bind_inv H. injection H as <- <-.
  assert (Hlt : (i < length GPR)%nat).
  { match goal with Hi : py_index _ _ = Ok _ |- _ =>
      apply py_index_Ok in Hi; apply nth_error_Some; rewrite Hi end.
    discriminate. }
  match goal with Hf : fit _ _ _ = Ok _ |- _ =>
    apply fit_same_object in Hf; destruct Hf as (_ & _ & Hfit) end.
  split.
  - eexists; eexists; eexists. split; [now apply nth_error_list_set_same|].
    split; [exact Hfit | reflexivity].
  - intros j Hj. apply nth_error_list_set_other. congruence.
Qed.

Lemma inner_loop_fits k idx : forall GPR F GPR' F',
  NoDup idx ->
  inner_loop X_train y_train p combos k idx (GPR, F) = Ok (GPR', F') ->
  (forall i, In i idx ->
     exists g xx t,
       nth_error GPR' i = Some g /\ fitted_on g = Some (xx, t) /\
       df_select X_train (nth i combos []) = Ok xx) /\
  (forall i, ~ In i idx -> nth_error GPR' i = nth_error GPR i).
Proof.
  induction idx as [|i idx IH]; intros GPR F GPR' F' Hnd H;
    cbn [inner_loop] in H.
  - injection H as <- <-. split; [intros i []| reflexivity].
  - bind_inv H. destruct a as [G1 F1].
    inversion Hnd as [|? ? Hni Hnd']; subst.
    match goal with Hu : update_component _ _ _ _ _ _ _ = Ok _ |- _ =>
      apply update_component_fits in Hu; destruct Hu as [Hfit Hother] end.
    apply IH in H; [|assumption]. destruct H as [Hin Hout]. split.
    + intros j [<-|Hj]; [|now apply Hin].
      rewrite (Hout i Hni). exact Hfit.
    + intros j Hj. rewrite Hout by (intro; apply Hj; now right).
      apply Hother. intros ->. apply Hj. now left.
Qed.

Lemma cycle_fits k st st' :
  cycle X_train y_train p combos k st = Ok st' ->
  forall i, (i < length combos)%nat ->
    exists g xx t,
      nth_error (st_GPR st') i = Some g /\ fitted_on g = Some (xx, t) /\
      df_select X_train (nth i combos []) = Ok xx.
Proof.
  unfold cycle. intro H.
  destruct (decay_block p (length combos) k (st_alpha st) (st_GPR st)
              (st_next st)) as [[a G] n].
  bind_inv H. destruct a1 as [G' F']. injection H as <-. cbn [st_GPR].
  match goal with Hl : inner_loop _ _ _ _ _ _ _ = Ok _ |- _ =>
    apply inner_loop_fits in Hl; [destruct Hl as [Hin _] | apply seq_NoDup] end.
  intros i Hi. apply Hin. apply in_seq. lia.
Qed.

Lemma train_loop_fits ks : forall st st',
  ks <> [] ->
  train_loop X_train y_train p combos ks st = Ok st' ->
  forall i, (i < length combos)%nat ->
    exists g xx t,
      nth_error (st_GPR st') i = Some g /\ fitted_on g = Some (xx, t) /\
      df_select X_train (nth i combos []) = Ok xx.
Proof.
  induction ks as [|k ks IH]; intros st st' Hne H; [congruence|].
  cbn [train_loop] in H. bind_inv H. destruct ks as [|k' ks'].
  - cbn [train_loop] in H. injection H as <-. eapply cycle_fits; eauto.
  - eapply IH; [discriminate | exact H].
Qed.

End FittedRegressors.

(** X15.  In a call with at least one cycle that returns, every returned
    regressor has been fitted, and fitted on the training inputs restricted
    to the features of its own combination (regressor [i] with combination
    [i]). *)
Theorem returned_regressors_are_fitted_on_their_combination
    {lib : External} (X_train : DataFrame) (y_train : vec)
    (X_test : DataFrame) (y_test : vec) (p : params) (res : fit_result) :
  (1 <= number_cycles p)%Z ->
  RS_HDMR_GPR X_train y_train X_test y_test p = Ok res ->
  exists combos,
    all_combos X_train p = Ok combos /\
    length (res_GPR res) = length combos /\
    (forall i, (i < length combos)%nat ->
       exists g xx t,
         nth_error (res_GPR res) i = Some g /\
         fitted_on g = Some (xx, t) /\
         df_select X_train (nth i combos []) = Ok xx).
Proof.
  intros Hc H. apply call_inv in H.
  destruct H as (combos & F0 & st & Hcombos & _ & Hrun & HG & _).
  exists combos. split; [exact Hcombos|]. rewrite HG. split.
  - eapply train_loop_GPR_length; [|exact Hrun].
    cbn [st_GPR new_regressors fst]. now rewrite length_map, length_seq.
  - eapply train_loop_fits; [|exact Hrun].
    unfold py_range. destruct (Z.to_nat (number_cycles p)) eqn:E; [lia|].
    discriminate.
Qed.

Lemma returned_regressors_are_fitted_on_their_combination_witness :
  exists res g xx t,
    RS_HDMR_GPR (lib := constant_stub) toy_X toy_y toy_X toy_y
      (call_with 1 1 "no" 1 4 "naive" "no") = Ok res /\
    nth_error (res_GPR res) 1 = Some g /\ fitted_on g = Some (xx, t).
Proof.
  destruct (RS_HDMR_GPR (lib := constant_stub) toy_X toy_y toy_X toy_y
              (call_with 1 1 "no" 1 4 "naive" "no")) as [res|e] eqn:E.
  - destruct (returned_regressors_are_fitted_on_their_combination
                (lib := constant_stub) toy_X toy_y toy_X toy_y
                (call_with 1 1 "no" 1 4 "naive" "no") res)
      as (combos & Hc & _ & Hfit).
    + cbn. lia.
    + exact E.
    + injection Hc as <-.
      destruct (Hfit 1%nat) as (g & xx & t & Hg & Hf & _); [cbn; lia|].
      exists res, g, xx, t. repeat split; assumption.
  - exfalso. apply (f_equal is_ok) in E. vm_compute in E. discriminate E.
Defined.

(** ** The min-max scaling of the script *)

Lemma fold_Rmin_spec t : forall x,
  fold_left Rmin t x <= x /\
  Forall (fun e => fold_left Rmin t x <= e) t /\
  (fold_left Rmin t x = x \/ In (fold_left Rmin t x) t).
Proof.
  induction t as [|e t IH]; intro x; cbn [fold_left].
  - split; [lra|]. split; [constructor | now left].
  - destruct (IH (Rmin x e)) as (Hle & Hall & Hin).
    pose proof (Rmin_l x e). pose proof (Rmin_r x e).
    split; [lra|]. split.
    + constructor; [lra | exact Hall].
    + destruct Hin as [Heq|Hin]; [|right; now right].
      rewrite Heq. unfold Rmin. destruct (Rle_dec x e);
        [now left | right; now left].
Qed.

Lemma fold_Rmax_spec t : forall x,
  x <= fold_left Rmax t x /\
  Forall (fun e => e <= fold_left Rmax t x) t /\
  (fold_left Rmax t x = x \/ In (fold_left Rmax t x) t).
Proof.
  induction t as [|e t IH]; intro x; cbn [fold_left].
  - split; [lra|]. split; [constructor | now left].
  - destruct (IH (Rmax x e)) as (Hle & Hall & Hin).
    pose proof (Rmax_l x e). pose proof (Rmax_r x e).
    split; [lra|]. split.
    + constructor; [lra | exact Hall].
    + destruct Hin as [Heq|Hin]; [|right; now right].
      rewrite Heq. unfold Rmax. destruct (Rle_dec x e);
        [right; now left | now left].
Qed.

Lemma vmin_spec v :
  v <> [] -> Forall (fun e => vmin v <= e) v /\ In (vmin v) v.
Proof.
  destruct v as [|x t]; [congruence|]. intros _. cbn [vmin].
  destruct (fold_Rmin_spec t x) as (Hle & Hall & Hin). split.
  - constructor; assumption.
  - destruct Hin as [->|Hin]; [now left | now right].
Qed.

Lemma vmax_spec v :
  v <> [] -> Forall (fun e => e <= vmax v) v /\ In (vmax v) v.
Proof.
  destruct v as [|x t]; [congruence|]. intros _. cbn [vmax].
  destruct (fold_Rmax_spec t x) as (Hle & Hall & Hin). split.
  - constructor; assumption.
  - destruct Hin as [->|Hin]; [now left | now right].
Qed.

Lemma minmax_map v :
  minmax v = map (fun x => (x - vmin v) / (vmax v - vmin v)) v.
Proof. unfold minmax, vdiv. now rewrite map_map. Qed.

(** X16.  The min-max scaling of the script, on a vector whose minimum is
    below its maximum: the result has the same size and lies in [0, 1],
    with 0 (at the minimum) and 1 (at the maximum) attained.  Scaling a
    frame keeps its shape and its column labels. *)
Theorem min_max_scaling_range (y : vec) :
  vmin y < vmax y ->
  length (minmax y) = length y /\
  Forall (fun x => 0 <= x <= 1) (minmax y) /\
  In 0 (minmax y) /\ In 1 (minmax y) /\
  (forall X : DataFrame,
     df_labels (minmax_frame X) = df_labels X /\
     df_nrows (minmax_frame X) = df_nrows X).
Proof.
  intro H.
  assert (Hne : y <> []) by (intros ->; cbn in H; lra).
  destruct (vmin_spec y Hne) as [Hmin Hmin_in].
  destruct (vmax_spec y Hne) as [Hmax Hmax_in].
  rewrite minmax_map.
  split; [apply length_map|]. split; [|split; [|split]].
  - apply Forall_map, Forall_forall. intros x Hx.
    rewrite Forall_forall in Hmin, Hmax.
    pose proof (Hmin x Hx). pose proof (Hmax x Hx).
    assert (Hd : 0 < / (vmax y - vmin y)) by (apply Rinv_0_lt_compat; lra).
    unfold Rdiv. split.
    + apply Rmult_le_pos; lra.
    + apply (Rmult_le_reg_r (vmax y - vmin y)); [lra|].
      rewrite Rmult_assoc, Rinv_l by lra. lra.
  - replace 0 with ((vmin y - vmin y) / (vmax y - vmin y))
      by (unfold Rdiv; ring).
    apply (in_map (fun x => (x - vmin y) / (vmax y - vmin y))). exact Hmin_in.
  - replace 1 with ((vmax y - vmin y) / (vmax y - vmin y))
      by (field; lra).
    apply (in_map (fun x => (x - vmin y) / (vmax y - vmin y))). exact Hmax_in.
  - intro X. unfold minmax_frame, df_labels. cbn [df_columns df_nrows].
    split; [|reflexivity]. rewrite map_map. reflexivity.
Qed.

Lemma min_max_scaling_range_witness :
  length (minmax [3; 1; 2]) = 3%nat /\
  Forall (fun x => 0 <= x <= 1) (minmax [3; 1; 2]) /\
  In 0 (minmax [3; 1; 2]) /\ In 1 (minmax [3; 1; 2]).
Proof.
  assert (H : vmin [3; 1; 2] < vmax [3; 1; 2]).
  { cbn [vmin vmax fold_left].
    rewrite (Rmin_right 3 1), (Rmin_left 1 2) by lra.
    rewrite (Rmax_left 3 1), (Rmax_left 3 2) by lra. lra. }
  destruct (min_max_scaling_range [3; 1; 2] H) as (Hl & Hr & H0 & H1 & _).
  repeat split; assumption.
Defined.

(** ** The size of the returned vectors *)

Lemma wf_matrix_of_columns F n :
  nrows F = n -> (forall i, (i < ncols F)%nat -> length (col F i) = n) ->
  wf_matrix F.
Proof.
  intros Hr Hc. unfold wf_matrix. apply Forall_forall. intros c Hin.
  destruct (In_nth _ _ [] Hin) as (i & Hi & <-).
  change (nth i (cols F) []) with (col F i). rewrite Hr. apply Hc. exact Hi.
Qed.

(** X17.  When every prediction of the library on the test inputs of a
    combination has one mean and one standard deviation per test row, an
    evaluation that returns yields one scaled prediction and one combined
    uncertainty per test row (also when there is no combination at all:
    the predictions are then all 0). *)
Theorem returned_vectors_have_one_entry_per_test_row
    {lib : External} (X_test : DataFrame) (y_test : vec) (p : params)
    (combos : list (list label)) (GPR : list regressor) (h : list R)
    (res : fit_result) :
  (forall i g xt m sd,
     (i < length combos)%nat ->
     df_select X_test (nth i combos []) = Ok xt ->
     py_index GPR i = Ok g ->
     predict_std g xt = Ok (m, sd) ->
     length m = df_nrows X_test /\ length sd = df_nrows X_test) ->
  evaluate X_test y_test p combos GPR h = Ok res ->
  length (res_y_pred_scaled res) = df_nrows X_test /\
  length (res_error_bars res) = df_nrows X_test /\
  (combos = [] ->
   res_y_pred_scaled res = vscale (zeros (df_nrows X_test)) (scale_factor p)).
Proof.
  intros Hlib H.
  pose proof (evaluate_inv _ _ _ _ _ _ _ H) as (Ft & Eb & Hloop & Hy & He).
  assert (Hspec := Hloop). apply test_loop_spec in Hspec;
    [| apply seq_NoDup
     | intros i Hi; apply in_seq in Hi; rewrite !zero_matrix_ncols; lia].
  destruct Hspec as (Hc1 & Hc2 & Hr1 & Hr2 & Hev & _).
  rewrite zero_matrix_ncols in Hc1, Hc2. cbn [zero_matrix nrows] in Hr1, Hr2.
  assert (Hcols : forall i, (i < length combos)%nat ->
            length (col Ft i) = df_nrows X_test /\
            length (col Eb i) = df_nrows X_test).
  { intros i Hi.
    destruct (Hev i) as (xt & g & m & sd & Hsel & Hg & Hp & -> & ->).
    { apply in_seq. lia. }
    destruct (Hlib i g xt m sd Hi Hsel Hg Hp) as [Hm Hsd]. split; [exact Hm|].
    unfold vmul. now apply vmap2_length_eq. }
  assert (HwF : wf_matrix Ft).
  { apply (wf_matrix_of_columns Ft (df_nrows X_test)); [exact Hr1|].
    intros i Hi. apply Hcols. now rewrite <- Hc1. }
  assert (HwE : wf_matrix Eb).
  { apply (wf_matrix_of_columns Eb (df_nrows X_test)); [exact Hr2|].
    intros i Hi. apply Hcols. now rewrite <- Hc2. }
  split; [|split].
  - rewrite Hy, vscale_length, sumcol_length by assumption. exact Hr1.
  - rewrite He, vscale_length. unfold vsqrt.
    rewrite length_map, sumcol_length by assumption. exact Hr2.
  - intros ->. cbn [length seq test_loop] in Hloop.
    injection Hloop as <- _. rewrite Hy. reflexivity.
Qed.

Lemma returned_vectors_have_one_entry_per_test_row_witness :
  exists res,
    evaluate (lib := constant_stub) toy_X toy_y
      (call_with 2 1 "no" 1 4 "naive" "no") toy_combos
      (toy_GPR1 (call_with 2 1 "no" 1 4 "naive" "no")) [] = Ok res /\
    length (res_y_pred_scaled res) = 2%nat /\
    length (res_error_bars res) = 2%nat.
Proof.
  destruct (evaluate (lib := constant_stub) toy_X toy_y
              (call_with 2 1 "no" 1 4 "naive" "no") toy_combos
              (toy_GPR1 (call_with 2 1 "no" 1 4 "naive" "no")) [])
    as [res|e] eqn:E.
  - exists res. split; [reflexivity|].
    destruct (returned_vectors_have_one_entry_per_test_row
                (lib := constant_stub) toy_X toy_y
                (call_with 2 1 "no" 1 4 "naive" "no") toy_combos
                (toy_GPR1 (call_with 2 1 "no" 1 4 "naive" "no")) [] res)
      as (Hy & He & _).
    + intros i g xt m sd Hi Hsel _ Hp.
      destruct i as [|i]; [|cbn in Hi; lia].
      vm_compute in Hsel. injection Hsel as <-.
      cbn in Hp. injection Hp as <- <-. split; reflexivity.
    + exact E.
    + split; assumption.
  - exfalso. apply (f_equal is_ok) in E. vm_compute in E. discriminate E.
Defined.
